(** * svc_power: the SVC power-control console command

    A shallow embedding of [apps/ara/svc_power/svc_power.c] and the
    properties of its verbs ([power], [wakeout], [wakeout_length],
    [dumpstate]).

    The command runs against the interface table of the board and calls
    into the interface core declared by [interface.h].  The core is not
    part of this file: it is taken as an abstract signature ([Core]).
    A C [int] is a [Z]; a [struct interface *] is the index of the
    structure in the interface table; [stdout] is the list of the
    [printf] calls made, format string first. *)

From Stdlib Require Import ZArith String Ascii List Lia Bool.
From stdpp Require Import base list strings.
Import ListNotations.

Local Open Scope string_scope.
Local Open Scope list_scope.
Local Open Scope Z_scope.

(** ** Data model ([interface.h], [vreg.h]) *)

(** [struct vreg_data]: one switchable rail. *)
Record vreg_data := {
  gpio : Z;
  hold_time : Z;
  active_high : Z;
  def_val : Z
}.

(** [struct vreg]: the array [vregs] with its length [nr_vregs] is a
    list; [None] is the NULL array of a group without rails. *)
Record vreg := {
  vreg_name : string;
  vregs : option (list vreg_data);
  power_enabled : bool;
  use_count : Z
}.

Definition nr_vregs (v : vreg) : nat :=
  match vregs v with
  | Some rails => length rails
  | None => 0%nat
  end.

Inductive wd_debounce_state :=
| WD_ST_INVALID
| WD_ST_INACTIVE_DEBOUNCE
| WD_ST_ACTIVE_DEBOUNCE
| WD_ST_INACTIVE_STABLE
| WD_ST_ACTIVE_STABLE.

Inductive hotplug_state :=
| HOTPLUG_ST_UNKNOWN
| HOTPLUG_ST_PLUGGED
| HOTPLUG_ST_UNPLUGGED.

Inductive ara_iface_order :=
| ARA_IFACE_ORDER_UNKNOWN
| ARA_IFACE_ORDER_PRIMARY
| ARA_IFACE_ORDER_SECONDARY.

#[global] Instance wd_debounce_state_eq_dec : EqDecision wd_debounce_state.
Proof. solve_decision. Defined.

#[global] Instance hotplug_state_eq_dec : EqDecision hotplug_state.
Proof. solve_decision. Defined.

#[global] Instance ara_iface_order_eq_dec : EqDecision ara_iface_order.
Proof. solve_decision. Defined.

(** [struct wd_data]: the wake/detect line of an interface. *)
Record wd_data := {
  wd_gpio : Z;
  polarity : bool;
  db_state : wd_debounce_state;
  last_state : wd_debounce_state
}.

(** [struct interface].  [if_type] is the C enumeration value. *)
Record interface := {
  name : string;
  switch_portid : Z;
  vsys_vreg : vreg;
  refclk_vreg : vreg;
  if_type : Z;
  wake_gpio : Z;
  detect_in : wd_data;
  if_order : ara_iface_order
}.

(** A [struct interface *]: the position in the interface table. *)
Definition iface_ptr := nat.

Bind Scope nat_scope with iface_ptr.

(** ** The interface core, as this file sees it

    Constants, predicates and primitives that [svc_power.c] takes from
    [interface.h], [errno.h] and the build configuration.  The power and
    wakeout primitives receive the structure they are called on and the
    state of the board, and give back their status, the structure as they
    leave it and the new board state. *)
Class Core := {
  hw : Type;
  PROGNAME : string;
  EINVAL : Z;
  EINVAL_pos : 0 < EINVAL;
  INVALID_PORT : Z;
  ARA_IFACE_TYPE_MODULE_PORT2 : Z;
  interface_is_module_port : interface -> bool;
  interface_get_id_by_portid : list interface -> Z -> Z;
  power_on : interface -> hw -> Z * (interface * hw);
  power_off : interface -> hw -> Z * (interface * hw);
  generate_wakeout : interface -> bool -> Z -> hw -> Z * (interface * hw)
}.

(** ** Program state *)

Inductive arg :=
| ArgS (s : string)
| ArgN (n : Z)
| ArgC (c : ascii).

(** One [printf] call: the format string as the source writes it, and
    the values of its arguments. *)
Record printed := Printf {
  fmt : string;
  args : list arg
}.

(** A call into the core, as recorded in the call log. *)
Inductive call :=
| CallPowerOn (iface : iface_ptr)
| CallPowerOff (iface : iface_ptr)
| CallWakeout (iface : iface_ptr) (assert : bool) (length : Z).

(** One call of the function pointer handed to [do_to_iface]: the
    interface, the context and the value returned. *)
Record invocation := Invoked {
  inv_iface : iface_ptr;
  inv_context : Z;
  inv_rc : Z
}.

Section SvcPower.

Context `{C : Core}.

(** [interfaces] is the board's interface table, [board] the rest of the
    core's state, [wakeout_length_default] the static variable of this
    file, [stdout] what has been printed.  [calls] and [invoked] are
    ghost logs: they record what the program did and are never read. *)
Record world := {
  interfaces : list interface;
  board : hw;
  wakeout_length_default : Z;
  stdout : list printed;
  calls : list call;
  invoked : list invocation
}.

Definition set_interfaces (l : list interface) (b : hw) (w : world) : world :=
  {| interfaces := l; board := b;
     wakeout_length_default := wakeout_length_default w;
     stdout := stdout w; calls := calls w; invoked := invoked w |}.

Definition set_wakeout_length_default (v : Z) (w : world) : world :=
  {| interfaces := interfaces w; board := board w;
     wakeout_length_default := v;
     stdout := stdout w; calls := calls w; invoked := invoked w |}.

Definition add_stdout (p : printed) (w : world) : world :=
  {| interfaces := interfaces w; board := board w;
     wakeout_length_default := wakeout_length_default w;
     stdout := stdout w ++ [p]; calls := calls w; invoked := invoked w |}.

Definition add_call (c : call) (w : world) : world :=
  {| interfaces := interfaces w; board := board w;
     wakeout_length_default := wakeout_length_default w;
     stdout := stdout w; calls := calls w ++ [c]; invoked := invoked w |}.

Definition add_invoked (i : invocation) (w : world) : world :=
  {| interfaces := interfaces w; board := board w;
     wakeout_length_default := wakeout_length_default w;
     stdout := stdout w; calls := calls w; invoked := invoked w ++ [i] |}.

(** The state of the program when it is loaded:
    [static int wakeout_length_default = -1;]. *)
Definition initial_world (table : list interface) (b : hw) : world :=
  {| interfaces := table; board := b;
     wakeout_length_default := -1;
     stdout := []; calls := []; invoked := [] |}.

(** ** The monad of C statements

    A computation either returns a value, or ends the program through
    [exit], or has no defined behaviour (it dereferences a pointer that
    is not in the table, or returns a variable it never assigned). *)
Inductive outcome (A : Type) :=
| Return (a : A) (w : world)
| Exited (status : Z) (w : world)
| Undefined.

Arguments Return {A} a w.
Arguments Exited {A} status w.
Arguments Undefined {A}.

Definition M (A : Type) : Type := world -> outcome A.

Definition ret {A} (a : A) : M A := fun w => Return a w.

Definition bind {A B} (m : M A) (k : A -> M B) : M B :=
  fun w =>
    match m w with
    | Return a w' => k a w'
    | Exited s w' => Exited s w'
    | Undefined => Undefined
    end.

Definition undefined {A} : M A := fun _ => Undefined.

Definition exit {A} (status : Z) : M A := fun w => Exited status w.

Definition get {A} (f : world -> A) : M A := fun w => Return (f w) w.

Definition modify (f : world -> world) : M unit := fun w => Return tt (f w).

End SvcPower.

Arguments Return {C A} a w.
Arguments Exited {C A} status w.
Arguments Undefined {C A}.

Declare Scope c_scope.
Delimit Scope c_scope with C.

Notation "'let*' x := m 'in' k" := (bind m (fun x => k))
  (at level 10, x name, m at level 100, k at level 200) : c_scope.

Notation "m ;; k" := (bind m (fun _ => k))
  (at level 100, k at level 200, right associativity) : c_scope.

Open Scope c_scope.

(** ** C library pieces used by the command *)

(** [!strcmp(a, b)] *)
Definition streq (a b : string) : bool := String.eqb a b.

(** The double quote character in a format string. *)
Definition dq : string := String (ascii_of_nat 34) EmptyString.

Definition EXIT_SUCCESS : Z := 0.
Definition EXIT_FAILURE : Z := 1.

(** A C [long] and a C [int] are 32 bits wide on the target (the source
    casts [int] to [void *] and back). *)
Definition LONG_MAX : Z := 2 ^ 31 - 1.
Definition LONG_MIN : Z := - 2 ^ 31.

(** Conversion to [int], with its wrap-around. *)
Definition to_int (z : Z) : Z := (z + 2 ^ 31) mod 2 ^ 32 - 2 ^ 31.

Definition isspace (c : ascii) : bool :=
  let n := nat_of_ascii c in
  Nat.eqb n 32 || (Nat.leb 9 n && Nat.leb n 13).

Definition isdigit (c : ascii) : bool :=
  let n := nat_of_ascii c in
  Nat.leb 48 n && Nat.leb n 57.

Definition digit_value (c : ascii) : Z := Z.of_nat (nat_of_ascii c) - 48.

Fixpoint skipspace (s : string) : string :=
  match s with
  | String c rest => if isspace c then skipspace rest else s
  | EmptyString => s
  end.

Fixpoint accumulate (s : string) (acc : Z) : Z :=
  match s with
  | String c rest =>
      if isdigit c then accumulate rest (acc * 10 + digit_value c) else acc
  | EmptyString => acc
  end.

(** Modelled from the spec: [strtol] is the C library's and is not part
    of this file; the spec only says that a string without a number
    parses to 0.  [strtol s] is [strtol(s, NULL, 10)] as ISO C defines it:
    leading white space is skipped, one sign is accepted, the longest run
    of decimal digits is converted, nothing to convert gives 0, and a
    value out of range is clamped to [LONG_MIN] or [LONG_MAX]. *)
Definition strtol (s : string) : Z :=
  match skipspace s with
  | String c rest =>
      if Ascii.eqb c "-" then Z.max LONG_MIN (- accumulate rest 0)
      else if Ascii.eqb c "+" then Z.min LONG_MAX (accumulate rest 0)
      else Z.min LONG_MAX (accumulate (String c rest) 0)
  | EmptyString => 0
  end.

(** Modelled from the spec: [interface_get_hotplug_state_atomic] is in
    the interface core, not in this file.  The hotplug classifier is a
    pure function of the debounce state: INACTIVE_STABLE gives UNPLUGGED,
    ACTIVE_STABLE gives PLUGGED, any debounce or invalid state gives
    UNKNOWN. *)
Definition interface_get_hotplug_state (iface : interface) : hotplug_state :=
  match db_state (detect_in iface) with
  | WD_ST_INACTIVE_STABLE => HOTPLUG_ST_UNPLUGGED
  | WD_ST_ACTIVE_STABLE => HOTPLUG_ST_PLUGGED
  | WD_ST_INVALID
  | WD_ST_INACTIVE_DEBOUNCE
  | WD_ST_ACTIVE_DEBOUNCE => HOTPLUG_ST_UNKNOWN
  end.

(** The [commands] table, without its function pointers (see
    [command_func] below). *)
Inductive cmd := HELP | SET_POWER | WAKEOUT | WAKEOUT_LENGTH | DUMPSTATE.

Definition all_cmds : list cmd :=
  [HELP; SET_POWER; WAKEOUT; WAKEOUT_LENGTH; DUMPSTATE].

Definition shortc (c : cmd) : ascii :=
  match c with
  | HELP => "h" | SET_POWER => "p" | WAKEOUT => "w"
  | WAKEOUT_LENGTH => "l" | DUMPSTATE => "d"
  end%char.

Definition longc (c : cmd) : string :=
  match c with
  | HELP => "help" | SET_POWER => "power" | WAKEOUT => "wakeout"
  | WAKEOUT_LENGTH => "wakeout_length" | DUMPSTATE => "dumpstate"
  end.

Definition help (c : cmd) : string :=
  match c with
  | HELP => "print this usage and exit"
  | SET_POWER => "get/set interface power"
  | WAKEOUT => "pulse WAKEOUT"
  | WAKEOUT_LENGTH => "get/set WAKEOUT pulse duration"
  | DUMPSTATE => "dump system power state"
  end.

Section Program.

Context `{C : Core}.

Definition printf (format : string) (values : list arg) : M unit :=
  modify (add_stdout (Printf format values)).

(** Reading through a [struct interface *]. *)
Definition deref (iface : iface_ptr) : M interface :=
  fun w =>
    match interfaces w !! iface with
    | Some s => Return s w
    | None => Undefined
    end.

(** [argv[i]] *)
Definition argv_at (argv : list string) (i : nat) : M string :=
  match argv !! i with
  | Some s => ret s
  | None => undefined
  end.

(** [for] over the elements of an array. *)
Fixpoint for_each {A} (l : list A) (body : A -> M unit) : M unit :=
  match l with
  | [] => ret tt
  | x :: rest => body x ;; for_each rest body
  end.

(** *** The interface registry *)

(** Modelled from the spec: [interface_get] is in the interface core,
    not in this file.  The registry is a fixed table of interfaces in
    registration order; [interface_get(idx)] is the interface at [idx],
    or NULL past the end of the table. *)
Definition interface_get (idx : nat) : M (option iface_ptr) :=
  get (fun w =>
         if decide (idx < length (interfaces w))%nat then Some idx else None).

(** Modelled from the spec: [interface_get_by_name] is in the interface
    core, not in this file.  [lookup_by_name] is an exact,
    case-sensitive match against the configured interface names and
    fails (NULL) otherwise; of several interfaces of one name it gives
    the first. *)
Definition interface_get_by_name (iface_name : string) : M (option iface_ptr) :=
  get (fun w =>
         fst <$> list_find (fun s => name s = iface_name) (interfaces w)).

Inductive flow := Continue | Break.

(** Modelled from the spec: the macro [interface_foreach] is in
    [interface.h], not in this file.  [for_each] produces the
    interfaces of the table in registration order:
    [interface_foreach(iface, idx) { body }] runs [idx] from 0 while
    [interface_get(idx)] is not NULL.  [body] says whether it breaks out
    of the loop, and threads the local variables [St] it assigns.  [n]
    bounds the iterations by the size of the table. *)
Fixpoint interface_foreach_from {St} (n idx : nat)
    (body : iface_ptr -> St -> M (flow * St)) (s : St) : M St :=
  match n with
  | O => ret s
  | S n' =>
      let* iface := interface_get idx in
      match iface with
      | None => ret s
      | Some p =>
          let* r := body p s in
          match r with
          | (Break, s') => ret s'
          | (Continue, s') => interface_foreach_from n' (S idx) body s'
          end
      end
  end.

Definition interface_foreach {St}
    (body : iface_ptr -> St -> M (flow * St)) (s : St) : M St :=
  fun w => interface_foreach_from (length (interfaces w)) 0 body s w.

(** *** Calls into the core *)

(** A primitive of the core called on [iface]: the call is recorded in
    the ghost log [calls], the primitive (a parameter of [Core]) runs on
    the structure and the board, and the structure is written back. *)
Definition core_call (c : call) (iface : iface_ptr)
    (prim : interface -> hw -> Z * (interface * hw)) : M Z :=
  fun w =>
    match interfaces w !! iface with
    | None => Undefined
    | Some s =>
        let '(rc, (s', b')) := prim s (board w) in
        Return rc (add_call c (set_interfaces (<[iface := s']> (interfaces w)) b' w))
    end.

Definition interface_power_on_atomic (iface : iface_ptr) : M Z :=
  core_call (CallPowerOn iface) iface power_on.

Definition interface_power_off_atomic (iface : iface_ptr) : M Z :=
  core_call (CallPowerOff iface) iface power_off.

Definition interface_generate_wakeout_atomic (iface : iface_ptr)
    (assert : bool) (length : Z) : M Z :=
  core_call (CallWakeout iface assert length) iface
            (fun s => generate_wakeout s assert length).

(** The classifier [interface_get_hotplug_state], on the structure that
    [iface] points to. *)
Definition interface_get_hotplug_state_atomic (iface : iface_ptr)
  : M hotplug_state :=
  let* s := deref iface in
  ret (interface_get_hotplug_state s).

(** *** Helpers *)

Definition print_interface_usage : M unit :=
  printf "\nLegal <interface> values on this board:\n" [] ;;
  printf (String.append "  \" (String.append dq
            (String.append "all\" (String.append dq " -- all interfaces\n"))))
         [] ;;
  interface_foreach
    (fun iface (_ : unit) =>
       let* s := deref iface in
       printf "  %s" [ArgS (name s)] ;;
       (if negb (Z.eqb (switch_portid s) INVALID_PORT)
        then printf "\t(switch port %d)\n" [ArgN (switch_portid s)]
        else printf "\t(no switch port)\n" []) ;;
       ret (Continue, tt))
    tt.

Definition usage {A} (exit_status : Z) : M A :=
  printf "%s: usage:\n" [ArgS PROGNAME] ;;
  for_each all_cmds
    (fun c =>
       printf "    %s [%c|%s]: %s\n"
              [ArgS PROGNAME; ArgC (shortc c); ArgS (longc c); ArgS (help c)]) ;;
  exit exit_status.

(** The call [rc = iface_func(iface, context)], with its record in the
    ghost log [invoked]. *)
Definition invoke (iface_func : iface_ptr -> Z -> M Z)
    (iface : iface_ptr) (context : Z) : M Z :=
  let* rc := iface_func iface context in
  modify (add_invoked (Invoked iface context rc)) ;;
  ret rc.

(** Generic "do something to an interface or all interfaces" helper.
    The local [rc] is [None] until it is assigned.  The [void *context]
    only ever carries an [int]: the casts to and from it are the
    identity. *)
Definition do_to_iface (iface_name : string)
    (iface_func : iface_ptr -> Z -> M Z) (context : Z) : M Z :=
  if streq iface_name "all" || streq iface_name "ALL" then
    (* iface = NULL: all interfaces *)
    let* rc :=
      interface_foreach
        (fun iface (_ : option Z) =>
           let* rc := invoke iface_func iface context in
           ret (if Z.eqb rc 0 then Continue else Break, Some rc))
        None in
    match rc with
    | Some rc => ret rc
    | None => undefined
    end
  else
    let* iface := interface_get_by_name iface_name in
    match iface with
    | None =>
        printf "Invalid interface: %s\n" [ArgS iface_name] ;;
        print_interface_usage ;;
        ret (- EINVAL)
    | Some iface => invoke iface_func iface context
    end.

End Program.

Section Verbs.

Context `{C : Core}.

(** *** Usage *)

Definition cmd_usage (argv : list string) : M Z :=
  usage EXIT_SUCCESS.

(** *** Interface power control *)

Definition set_power_usage {A} (exit_status : Z) : M A :=
  printf "%s %s <interface> <0|1>: usage:\n"
         [ArgS PROGNAME; ArgS (longc SET_POWER)] ;;
  printf "    <interface>: Interface to set power state of.\n" [] ;;
  printf (String.append "    <0|1>: specify \" (String.append dq
            (String.append "0\" (String.append dq
               (String.append " to power off, \" (String.append dq
                  (String.append "1\" (String.append dq " to power on.\n"))))))))
         [] ;;
  printf "\n" [] ;;
  printf "NOTE: This may interfere with the power subsystem's\n      refcounting. Use only if you know what you're doing.\n" [] ;;
  print_interface_usage ;;
  exit exit_status.

Definition set_power_func (iface : iface_ptr) (context : Z) : M Z :=
  let enable := context in
  if negb (Z.eqb enable 0)
  then interface_power_on_atomic iface
  else interface_power_off_atomic iface.

Definition cmd_set_power (argv : list string) : M Z :=
  let argc := length argv in
  (if negb (Nat.eqb argc 4) then set_power_usage EXIT_FAILURE else ret tt) ;;
  let* a3 := argv_at argv 3 in
  let enable := to_int (strtol a3) in
  let context := enable in
  let* a2 := argv_at argv 2 in
  do_to_iface a2 set_power_func context.

(** *** Wake out *)

Definition wakeout_usage {A} (exit_status : Z) : M A :=
  printf "%s %s <interface> [<length>]: usage:\n"
         [ArgS PROGNAME; ArgS (longc WAKEOUT)] ;;
  printf "   <interface>: Interface to send WAKEOUT to.\n" [] ;;
  printf "   <length>: Pulse length in us.\n" [] ;;
  print_interface_usage ;;
  exit exit_status.

Definition wakeout_func (iface : iface_ptr) (context : Z) : M Z :=
  let length := context in
  interface_generate_wakeout_atomic iface false length.

Definition cmd_wakeout (argv : list string) : M Z :=
  let argc := length argv in
  let* length := get wakeout_length_default in
  (if negb (Nat.eqb argc 3) && negb (Nat.eqb argc 4)
   then wakeout_usage EXIT_FAILURE else ret tt) ;;
  let* length :=
    (if Nat.eqb argc 4
     then let* a3 := argv_at argv 3 in ret (to_int (strtol a3))
     else ret length) in
  let* a2 := argv_at argv 2 in
  do_to_iface a2 wakeout_func length.

(** *** Get/set wake out pulse default duration *)

Definition wakeout_length_usage {A} (exit_status : Z) : M A :=
  printf "%s %s [<length>]: usage:\n"
         [ArgS PROGNAME; ArgS (longc WAKEOUT_LENGTH)] ;;
  printf "   <length>: Pulse duration in us. -1 to use the default hardcoded value\n" [] ;;
  exit exit_status.

Definition cmd_wakeout_length (argv : list string) : M Z :=
  let argc := length argv in
  (if negb (Nat.eqb argc 2) && negb (Nat.eqb argc 3)
   then wakeout_length_usage EXIT_FAILURE else ret tt) ;;
  (if Nat.eqb argc 3
   then let* a2 := argv_at argv 2 in
        modify (set_wakeout_length_default (to_int (strtol a2)))
   else ret tt) ;;
  let* a0 := argv_at argv 0 in
  let* a1 := argv_at argv 1 in
  let* length := get wakeout_length_default in
  printf "%s %s: WAKEOUT pulse length is set to %d\n"
         [ArgS a0; ArgS a1; ArgN length] ;;
  ret 0.

(** *** Dump system state *)

Definition dumpstate_usage {A} (exit_status : Z) : M A :=
  printf "%s %s <interface>: dump power system state\n"
         [ArgS PROGNAME; ArgS (longc DUMPSTATE)] ;;
  print_interface_usage ;;
  exit exit_status.

Definition dumpstate_vreg (v : vreg) : M unit :=
  printf "\tvreg: %s\n" [ArgS (vreg_name v)] ;;
  (if vregs v is None then printf "\t\t(no vregs)\n" [] else ret tt) ;;
  printf "\t\tnr_vregs=%u\n" [ArgN (Z.of_nat (nr_vregs v))] ;;
  printf "\t\tpower_enabled=%s\n"
         [ArgS (if power_enabled v then "true" else "false")] ;;
  printf "\t\tuse_count=%u\n" [ArgN (use_count v)] ;;
  for_each (imap pair (default [] (vregs v)))
    (fun '(i, r) =>
       printf "\t\tvregs[%d]: gpio %u, hold_time %u, active_high %u, def_val %u\n"
              [ArgN (Z.of_nat i); ArgN (gpio r); ArgN (hold_time r);
               ArgN (active_high r); ArgN (def_val r)]).

Definition db_state_label (st : wd_debounce_state) : string :=
  if decide (st = WD_ST_INVALID) then "invalid" else
  if decide (st = WD_ST_INACTIVE_DEBOUNCE) then "inactive debounce" else
  if decide (st = WD_ST_ACTIVE_DEBOUNCE) then "active debounce" else
  if decide (st = WD_ST_INACTIVE_STABLE) then "inactive stable" else
  if decide (st = WD_ST_ACTIVE_STABLE) then "active stable" else
  "<internal error>".

Definition hp_state_label (st : hotplug_state) : string :=
  if decide (st = HOTPLUG_ST_UNKNOWN) then "unknown" else
  if decide (st = HOTPLUG_ST_PLUGGED) then "plugged" else
  if decide (st = HOTPLUG_ST_UNPLUGGED) then "unplugged" else
  "<internal error>".

Definition if_order_label (o : ara_iface_order) : string :=
  if decide (o = ARA_IFACE_ORDER_UNKNOWN) then "unknown" else
  if decide (o = ARA_IFACE_ORDER_PRIMARY) then "primary" else
  if decide (o = ARA_IFACE_ORDER_SECONDARY) then "secondary" else
  "<internal error>".

Definition dumpstate_func (iface : iface_ptr) (context : Z) : M Z :=
  let* s := deref iface in
  printf "Interface %s:\n" [ArgS (name s)] ;;
  (if Z.eqb (switch_portid s) INVALID_PORT then
     printf "\tswitch_portid=<none>\n" [] ;;
     printf "\tinterface ID=<unknown>\n" []
   else
     printf "\tswitch_portid=%u\n" [ArgN (switch_portid s)] ;;
     let* table := get interfaces in
     printf "\tinterface ID=%u\n"
            [ArgN (interface_get_id_by_portid table (switch_portid s))]) ;;
  dumpstate_vreg (vsys_vreg s) ;;
  dumpstate_vreg (refclk_vreg s) ;;
  (* Do a little extra for the module ports. *)
  (if interface_is_module_port s then
     let db_state := db_state (detect_in s) in
     let last_state := last_state (detect_in s) in
     let* hp_state := interface_get_hotplug_state_atomic iface in
     (if Z.eqb (if_type s) ARA_IFACE_TYPE_MODULE_PORT2 then
        printf "\twake:\n" [] ;;
        printf "\t\tgpio: %u\n" [ArgN (wake_gpio s)] ;;
        printf "\tdetect:\n" []
      else
        printf "\twake/detect:\n" []) ;;
     printf "\t\tgpio: %u\n" [ArgN (wd_gpio (detect_in s))] ;;
     printf "\t\tpolarity: %s\n"
            [ArgS (if polarity (detect_in s) then "high" else "low")] ;;
     printf "\t\tdb_state: %s\n" [ArgS (db_state_label db_state)] ;;
     printf "\t\tlast_state: %s\n" [ArgS (db_state_label last_state)] ;;
     printf "\thotplug state: %s\n" [ArgS (hp_state_label hp_state)] ;;
     printf "\torder: %s\n" [ArgS (if_order_label (if_order s))]
   else ret tt) ;;
  ret 0.

Definition cmd_dumpstate (argv : list string) : M Z :=
  let argc := length argv in
  (if negb (Nat.eqb argc 3) then dumpstate_usage EXIT_FAILURE else ret tt) ;;
  let* a2 := argv_at argv 2 in
  do_to_iface a2 dumpstate_func 0.

(** *** main() *)

(** The function pointers of the [commands] table. *)
Definition command_func (c : cmd) : list string -> M Z :=
  match c with
  | HELP => cmd_usage
  | SET_POWER => cmd_set_power
  | WAKEOUT => cmd_wakeout
  | WAKEOUT_LENGTH => cmd_wakeout_length
  | DUMPSTATE => cmd_dumpstate
  end.

Fixpoint dispatch (cmds : list cmd) (cmd_str : string) (argv : list string)
  : M Z :=
  match cmds with
  | [] => usage EXIT_FAILURE
  | c :: rest =>
      if streq cmd_str (longc c)
         || streq cmd_str (String (shortc c) EmptyString)
      then command_func c argv
      else dispatch rest cmd_str argv
  end.

Definition power_main (argv : list string) : M Z :=
  let argc := length argv in
  (if Nat.ltb argc 2 then usage EXIT_FAILURE else ret tt) ;;
  let* cmd_str := argv_at argv 1 in
  dispatch all_cmds cmd_str argv.

End Verbs.

(** ** What the printing functions write

    Closed forms of the output of [print_interface_usage],
    [dumpstate_vreg] and [dumpstate_func], used to reason about them. *)
Section Reports.

Context `{C : Core}.

Definition add_stdouts (out : list printed) (w : world) : world :=
  {| interfaces := interfaces w; board := board w;
     wakeout_length_default := wakeout_length_default w;
     stdout := stdout w ++ out; calls := calls w; invoked := invoked w |}.

Definition interface_usage_line (s : interface) : list printed :=
  [Printf "  %s" [ArgS (name s)];
   if negb (Z.eqb (switch_portid s) INVALID_PORT)
   then Printf "\t(switch port %d)\n" [ArgN (switch_portid s)]
   else Printf "\t(no switch port)\n" []].

Definition interface_usage_lines (table : list interface) : list printed :=
  [Printf "\nLegal <interface> values on this board:\n" [];
   Printf (String.append "  \" (String.append dq
             (String.append "all\" (String.append dq " -- all interfaces\n"))))
          []]
  ++ flat_map interface_usage_line table.

Definition rail_line (i : nat) (r : vreg_data) : printed :=
  Printf "\t\tvregs[%d]: gpio %u, hold_time %u, active_high %u, def_val %u\n"
         [ArgN (Z.of_nat i); ArgN (gpio r); ArgN (hold_time r);
          ArgN (active_high r); ArgN (def_val r)].

Definition vreg_lines (v : vreg) : list printed :=
  [Printf "\tvreg: %s\n" [ArgS (vreg_name v)]]
  ++ (if vregs v is None then [Printf "\t\t(no vregs)\n" []] else [])
  ++ [Printf "\t\tnr_vregs=%u\n" [ArgN (Z.of_nat (nr_vregs v))];
      Printf "\t\tpower_enabled=%s\n"
             [ArgS (if power_enabled v then "true" else "false")];
      Printf "\t\tuse_count=%u\n" [ArgN (use_count v)]]
  ++ imap rail_line (default [] (vregs v)).

Definition port_lines (table : list interface) (s : interface) : list printed :=
  Printf "Interface %s:\n" [ArgS (name s)]
  :: (if Z.eqb (switch_portid s) INVALID_PORT then
        [Printf "\tswitch_portid=<none>\n" [];
         Printf "\tinterface ID=<unknown>\n" []]
      else
        [Printf "\tswitch_portid=%u\n" [ArgN (switch_portid s)];
         Printf "\tinterface ID=%u\n"
                [ArgN (interface_get_id_by_portid table (switch_portid s))]]).

Definition wake_lines (s : interface) : list printed :=
  if Z.eqb (if_type s) ARA_IFACE_TYPE_MODULE_PORT2 then
    [Printf "\twake:\n" [];
     Printf "\t\tgpio: %u\n" [ArgN (wake_gpio s)];
     Printf "\tdetect:\n" []]
  else
    [Printf "\twake/detect:\n" []].

Definition detect_lines (s : interface) : list printed :=
  [Printf "\t\tgpio: %u\n" [ArgN (wd_gpio (detect_in s))];
   Printf "\t\tpolarity: %s\n"
          [ArgS (if polarity (detect_in s) then "high" else "low")];
   Printf "\t\tdb_state: %s\n" [ArgS (db_state_label (db_state (detect_in s)))];
   Printf "\t\tlast_state: %s\n"
          [ArgS (db_state_label (last_state (detect_in s)))];
   Printf "\thotplug state: %s\n"
          [ArgS (hp_state_label (interface_get_hotplug_state s))];
   Printf "\torder: %s\n" [ArgS (if_order_label (if_order s))]].

Definition dumpstate_lines (table : list interface) (s : interface)
  : list printed :=
  port_lines table s
  ++ vreg_lines (vsys_vreg s)
  ++ vreg_lines (refclk_vreg s)
  ++ (if interface_is_module_port s then wake_lines s ++ detect_lines s else []).

(** A function that [do_to_iface] may be handed: called on an interface
    of the table it returns, it leaves the ghost log [invoked] alone and
    keeps the size of the table. *)
Definition well_behaved (f : iface_ptr -> Z -> M Z) : Prop :=
  forall iface context w,
    (iface < length (interfaces w))%nat ->
    exists rc w',
      f iface context w = Return rc w'
      /\ invoked w' = invoked w
      /\ length (interfaces w') = length (interfaces w).

(** The functions that the verbs hand to [do_to_iface]. *)
Definition verb_func (f : iface_ptr -> Z -> M Z) : Prop :=
  f = set_power_func \/ f = wakeout_func \/ f = dumpstate_func.

(** [calls_in_turn f context idx w rcs w']: from the world [w], [f] is
    called on the interfaces [idx], [idx + 1], ... one after the other,
    as many times as [rcs] is long; each call starts in the world the
    call before left, once its record is added to [invoked]; the calls
    return [rcs], in this order, and the last leaves [w']. *)
Fixpoint calls_in_turn (f : iface_ptr -> Z -> M Z) (context : Z)
    (idx : iface_ptr) (w : world) (rcs : list Z) (w' : world) : Prop :=
  match rcs with
  | [] => w' = w
  | rc :: rest =>
      exists w1,
        f idx context w = Return rc w1
        /\ calls_in_turn f context (S idx)
                         (add_invoked (Invoked idx context rc) w1) rest w'
  end.

(** The records that calls on the interfaces [0, 1, ...] with results
    [rcs] leave in [invoked]. *)
Definition invocations (context : Z) (rcs : list Z) : list invocation :=
  imap (fun i rc => Invoked i context rc) rcs.

(** [w'] differs from [w] at most in what has been printed and in the
    ghost log [invoked]: the interface table, the board, the default
    wakeout length are the same, and no primitive of the core has been
    called. *)
Definition same_state (w w' : world) : Prop :=
  interfaces w' = interfaces w
  /\ board w' = board w
  /\ wakeout_length_default w' = wakeout_length_default w
  /\ calls w' = calls w.

(** No configured interface is named [iface_name]. *)
Definition not_configured (iface_name : string) (w : world) : Prop :=
  Forall (fun s => name s <> iface_name) (interfaces w).

(** [iface] is the first interface of the table named [iface_name]. *)
Definition configured_at (iface_name : string) (iface : iface_ptr) (w : world)
  : Prop :=
  (exists s, interfaces w !! iface = Some s /\ name s = iface_name)
  /\ forall j s, interfaces w !! j = Some s -> (j < iface)%nat ->
                name s <> iface_name.

(** The outcome of a verb that fails with [-EINVAL] without touching
    anything but [stdout]. *)
Definition rejected (o : outcome Z) (w : world) : Prop :=
  exists w',
    o = Return (- EINVAL) w' /\ same_state w w' /\ invoked w' = invoked w.

(** The call into the core that [set_power_func] makes. *)
Definition power_call (enable : Z) (iface : iface_ptr) : call :=
  if Z.eqb enable 0 then CallPowerOff iface else CallPowerOn iface.

(** Between [w] and [w'] every new record of [invoked] goes with one
    new call into the core, [ev] of the record, in the same order. *)
Definition calls_follow (ev : invocation -> call) (w w' : world) : Prop :=
  exists l, invoked w' = invoked w ++ l /\ calls w' = calls w ++ map ev l.


(** The argument of [strtol] holds no decimal digit. *)
Definition no_digit (s : string) : Prop :=
  Forall (fun c => isdigit c = false) (list_ascii_of_string s).

End Reports.

(** ** The voltage regulator group

    The regulator code is not part of this file; the power primitives of
    [Core] stand for it above.  This module is the contract of a group
    on its own: reference counting over the [struct vreg] that
    [dumpstate] prints, and the order in which the rails are driven. *)
Module VregGroup.

Inductive status := Success | HardwareFault | MisuseError.

Inductive rail_event :=
| Drive (pin : Z) (active : bool)
| Hold (time : Z).

Inductive op := Enable | Disable.

#[global] Instance op_eq_dec : EqDecision op.
Proof. solve_decision. Defined.

#[global] Instance status_eq_dec : EqDecision status.
Proof. solve_decision. Defined.

Definition rails (g : vreg) : list vreg_data := default [] (vregs g).

Definition with_state (g : vreg) (enabled : bool) (count : Z) : vreg :=
  {| vreg_name := vreg_name g; vregs := vregs g;
     power_enabled := enabled; use_count := count |}.

Definition fresh (g : vreg) : Prop :=
  use_count g = 0 /\ power_enabled g = false.

Section Rails.

(** Whether a write to the rail completes. *)
Variable completes : vreg_data -> bool.

Fixpoint drive_active (l : list vreg_data) : bool * list rail_event :=
  match l with
  | [] => (true, [])
  | r :: rest =>
      if completes r then
        let '(ok, evs) := drive_active rest in
        (ok, Drive (gpio r) true :: Hold (hold_time r) :: evs)
      else (false, [])
  end.

Definition drive_inactive (l : list vreg_data) : list rail_event :=
  map (fun r => Drive (gpio r) false) (rev l).

(** Modelled from the spec: [enable(group)] of the regulator code, not in
    this file.  It increments [use_count]; if that is the transition
    from 0 to 1 it drives the rails active in order and then sets
    [power_enabled]; it fails with a hardware fault if a rail write does
    not complete.  The invariant of the group,
    [power_enabled == (use_count > 0)], has no exception: a call that
    reports a fault leaves the count incremented and [power_enabled]
    set, like one that succeeds. *)
Definition enable (g : vreg) : status * vreg * list rail_event :=
  let count := use_count g + 1 in
  if Z.eqb count 1 then
    let '(ok, evs) := drive_active (rails g) in
    (if ok then Success else HardwareFault, with_state g true count, evs)
  else (Success, with_state g (power_enabled g) count, []).

(** Modelled from the spec: [disable(group)] of the regulator code, not
    in this file.  It decrements [use_count] if it is positive; if that
    is the transition from 1 to 0 it drives the rails inactive in
    reverse order and clears [power_enabled]; at [use_count] 0 it is a
    no-op that reports a misuse. *)
Definition disable (g : vreg) : status * vreg * list rail_event :=
  if Z.ltb 0 (use_count g) then
    let count := use_count g - 1 in
    if Z.eqb count 0 then (Success, with_state g false count, drive_inactive (rails g))
    else (Success, with_state g (power_enabled g) count, [])
  else (MisuseError, g, []).

Definition apply (o : op) (g : vreg) : status * vreg * list rail_event :=
  match o with
  | Enable => enable g
  | Disable => disable g
  end.

(** The calls [ops], one after the other: the status of each, the group
    at the end, and what was done to the rails. *)
Fixpoint run (ops : list op) (g : vreg)
  : list status * vreg * list rail_event :=
  match ops with
  | [] => ([], g, [])
  | o :: rest =>
      let '(st, g1, evs1) := apply o g in
      let '(sts, g2, evs2) := run rest g1 in
      (st :: sts, g2, evs1 ++ evs2)
  end.

Definition statuses (ops : list op) (g : vreg) : list status :=
  fst (fst (run ops g)).

Definition final (ops : list op) (g : vreg) : vreg :=
  snd (fst (run ops g)).

(** The number of calls of [ops] that reported a misuse: the [disable]
    calls issued at [use_count] 0. *)
Definition misuses (ops : list op) (g : vreg) : Z :=
  Z.of_nat (length (filter (fun st => st = MisuseError) (statuses ops g))).

End Rails.

(** The number of calls of [o] in [ops]. *)
Definition calls_of (o : op) (ops : list op) : Z :=
  Z.of_nat (length (filter (fun x => x = o) ops)).

(** No [disable] of [ops] is issued at [use_count] 0 on a fresh group:
    up to any point there are at least as many [enable] calls as
    [disable] calls. *)
Definition never_below_zero (ops : list op) : Prop :=
  forall k, calls_of Disable (take k ops) <= calls_of Enable (take k ops).

End VregGroup.

(** ** The command line *)

(** The string [s] names the verb [c]: it is its long name or its
    letter. *)
Definition selects (s : string) (c : cmd) : Prop :=
  s = longc c \/ s = String (shortc c) EmptyString.

(** The line of the [usage] listing for the verb [c]. *)
Definition usage_line `{C : Core} (c : cmd) : printed :=
  Printf "    %s [%c|%s]: %s\n"
         [ArgS PROGNAME; ArgC (shortc c); ArgS (longc c); ArgS (help c)].

(** The line that the wakeout_length verb prints. *)
Definition wakeout_length_line (a0 a1 : string) (length : Z) : printed :=
  Printf "%s %s: WAKEOUT pulse length is set to %d\n"
         [ArgS a0; ArgS a1; ArgN length].

(** What the usage function of each verb prints before the list of
    legal interface values (the wakeout_length verb has no such list). *)
Definition set_power_usage_heading `{C : Core} : list printed :=
  [Printf "%s %s <interface> <0|1>: usage:\n"
          [ArgS PROGNAME; ArgS (longc SET_POWER)];
   Printf "    <interface>: Interface to set power state of.\n" [];
   Printf (String.append "    <0|1>: specify \" (String.append dq
             (String.append "0\" (String.append dq
                (String.append " to power off, \" (String.append dq
                   (String.append "1\" (String.append dq " to power on.\n"))))))))
          [];
   Printf "\n" [];
   Printf "NOTE: This may interfere with the power subsystem's\n      refcounting. Use only if you know what you're doing.\n" []].

Definition wakeout_usage_heading `{C : Core} : list printed :=
  [Printf "%s %s <interface> [<length>]: usage:\n"
          [ArgS PROGNAME; ArgS (longc WAKEOUT)];
   Printf "   <interface>: Interface to send WAKEOUT to.\n" [];
   Printf "   <length>: Pulse length in us.\n" []].

Definition wakeout_length_usage_lines `{C : Core} : list printed :=
  [Printf "%s %s [<length>]: usage:\n"
          [ArgS PROGNAME; ArgS (longc WAKEOUT_LENGTH)];
   Printf "   <length>: Pulse duration in us. -1 to use the default hardcoded value\n" []].

Definition dumpstate_usage_heading `{C : Core} : list printed :=
  [Printf "%s %s <interface>: dump power system state\n"
          [ArgS PROGNAME; ArgS (longc DUMPSTATE)]].


(** ** A small board, to run the command on

    Three interfaces: a built-in one without rails (type 0), a module
    port whose wake and detect lines are one (type 1) and a module port
    with a wake line of its own (type 2, [ARA_IFACE_TYPE_MODULE_PORT2]).
    Powering an interface without rails fails with [-5]; a wakeout
    pulse is counted by the board and fails with [-95] on an interface
    that is not a module port. *)
Module Demo.

Definition rail (g : Z) : vreg_data :=
  {| gpio := g; hold_time := 100; active_high := 1; def_val := 0 |}.

Definition group (n : string) (rails : option (list vreg_data)) : vreg :=
  {| vreg_name := n; vregs := rails; power_enabled := false; use_count := 0 |}.

Definition line (g : Z) (st : wd_debounce_state) : wd_data :=
  {| wd_gpio := g; polarity := true; db_state := st; last_state := WD_ST_INVALID |}.

Definition is_module_port (s : interface) : bool :=
  Z.eqb (if_type s) 1 || Z.eqb (if_type s) 2.

Definition bump (up : bool) (v : vreg) : vreg :=
  let n := if up then use_count v + 1 else Z.max 0 (use_count v - 1) in
  {| vreg_name := vreg_name v; vregs := vregs v;
     power_enabled := Z.ltb 0 n; use_count := n |}.

Definition power (up : bool) (s : interface) (b : nat) : Z * (interface * nat) :=
  match vregs (vsys_vreg s) with
  | None => (-5, (s, b))
  | Some _ =>
      (0, ({| name := name s; switch_portid := switch_portid s;
              vsys_vreg := bump up (vsys_vreg s);
              refclk_vreg := bump up (refclk_vreg s);
              if_type := if_type s; wake_gpio := wake_gpio s;
              detect_in := detect_in s; if_order := if_order s |}, b))
  end.

Definition pulse (s : interface) (assert : bool) (len : Z) (b : nat)
  : Z * (interface * nat) :=
  if is_module_port s then (0, (s, S b)) else (-95, (s, b)).

Definition id_by_portid (table : list interface) (port : Z) : Z :=
  match list_find (fun s => switch_portid s = port) table with
  | Some (i, _) => Z.of_nat i + 1
  | None => -22
  end.

#[export] Instance core : Core := {|
  hw := nat;
  PROGNAME := "power";
  EINVAL := 22;
  EINVAL_pos := eq_refl;
  INVALID_PORT := 255;
  ARA_IFACE_TYPE_MODULE_PORT2 := 2;
  interface_is_module_port := is_module_port;
  interface_get_id_by_portid := id_by_portid;
  power_on := power true;
  power_off := power false;
  generate_wakeout := pulse
|}.

Definition apb1 : interface :=
  {| name := "apb1"; switch_portid := 3;
     vsys_vreg := group "apb1_vsys" None;
     refclk_vreg := group "apb1_refclk" None;
     if_type := 0; wake_gpio := 0;
     detect_in := line 0 WD_ST_INVALID;
     if_order := ARA_IFACE_ORDER_UNKNOWN |}.

Definition module_1 : interface :=
  {| name := "module_1"; switch_portid := 13;
     vsys_vreg := group "module_1_vsys" (Some [rail 20; rail 21]);
     refclk_vreg := group "module_1_refclk" (Some [rail 22]);
     if_type := 1; wake_gpio := 7;
     detect_in := line 30 WD_ST_ACTIVE_STABLE;
     if_order := ARA_IFACE_ORDER_PRIMARY |}.

Definition module_2 : interface :=
  {| name := "module_2"; switch_portid := 255;
     vsys_vreg := group "module_2_vsys" (Some [rail 23]);
     refclk_vreg := group "module_2_refclk" (Some [rail 24]);
     if_type := 2; wake_gpio := 8;
     detect_in := line 31 WD_ST_INACTIVE_DEBOUNCE;
     if_order := ARA_IFACE_ORDER_SECONDARY |}.

(** [module_1] and [module_2] first: powering "all" reaches both. *)
Definition modules_first : world :=
  initial_world [module_1; module_2; apb1] 0%nat.

(** [apb1] in the middle: powering "all" stops there. *)
Definition builtin_second : world :=
  initial_world [module_1; apb1; module_2] 0%nat.

End Demo.

(** ** Properties *)

Section Properties.

Context `{C : Core}.

(** *** Stepping through the monad *)

Lemma bind_Return {A B} (m : M A) (k : A -> M B) w a w' :
  m w = Return a w' -> bind m k w = k a w'.
Proof. intros H. unfold bind. now rewrite H. Qed.

Lemma world_eta (w : world) : add_stdouts [] w = w.
Proof. destruct w. unfold add_stdouts. simpl. now rewrite app_nil_r. Qed.

Lemma add_stdouts_app out1 out2 w :
  add_stdouts out2 (add_stdouts out1 w) = add_stdouts (out1 ++ out2) w.
Proof. unfold add_stdouts. simpl. now rewrite app_assoc. Qed.

Lemma printf_prints format values w :
  printf format values w = Return tt (add_stdouts [Printf format values] w).
Proof. reflexivity. Qed.

Lemma streq_eq a b : streq a b = true <-> a = b.
Proof. apply String.eqb_eq. Qed.

Lemma selects_all iface_name :
  streq iface_name "all" || streq iface_name "ALL" = true
  <-> iface_name = "all" \/ iface_name = "ALL".
Proof. rewrite orb_true_iff, !streq_eq. tauto. Qed.

(** *** The loop of [do_to_iface] over all interfaces *)

Lemma interface_get_lt idx w :
  (idx < length (interfaces w))%nat -> interface_get idx w = Return (Some idx) w.
Proof.
  intros H. unfold interface_get, get. now rewrite decide_True.
Qed.

Lemma invoke_well_behaved f iface context w :
  well_behaved f ->
  (iface < length (interfaces w))%nat ->
  exists rc w',
    invoke f iface context w = Return rc w'
    /\ invoked w' = invoked w ++ [Invoked iface context rc]
    /\ length (interfaces w') = length (interfaces w).
Proof.
  intros Hf Hlt. destruct (Hf iface context w Hlt) as (rc & w1 & Hrun & Hinv & Hlen).
  exists rc, (add_invoked (Invoked iface context rc) w1).
  unfold invoke. rewrite (bind_Return _ _ _ _ _ Hrun). simpl.
  split; [reflexivity|]. split; [now rewrite Hinv | exact Hlen].
Qed.

(** The loop from index [idx] over the [n] interfaces that remain: the
    calls it makes, in order, are recorded in [invoked]; every call but
    the last returned 0; the loop stops early only on a non-zero
    result; [rc] holds the result of the last call.  A property [P] of
    the world that every call keeps holds at the end. *)
Lemma foreach_invoke (P : world -> Prop) f context :
  well_behaved f ->
  (forall iface w rc w',
      P w -> invoke f iface context w = Return rc w' -> P w') ->
  forall n idx (acc : option Z) w,
    (idx + n = length (interfaces w))%nat ->
    P w ->
    exists rcs w',
      interface_foreach_from n idx
        (fun iface (_ : option Z) =>
           let* rc := invoke f iface context in
           ret (if Z.eqb rc 0 then Continue else Break, Some rc))
        acc w
      = Return (if last rcs is Some rc then Some rc else acc) w'
      /\ invoked w'
         = invoked w ++ imap (fun i r => Invoked (idx + i)%nat context r) rcs
      /\ (forall j r, rcs !! j = Some r -> (S j < length rcs)%nat -> r = 0)
      /\ (length rcs <= n)%nat
      /\ ((exists r, last rcs = Some r /\ r <> 0) \/ length rcs = n)
      /\ P w'.
Proof.
  intros Hf HP. induction n as [|n IH]; intros idx acc w Hn Hw.
  - exists [], w. simpl. rewrite app_nil_r.
    repeat split; auto. intros j r Hj. discriminate.
  - assert (Hlt : (idx < length (interfaces w))%nat) by lia.
    destruct (invoke_well_behaved f idx context w Hf Hlt)
      as (rc & w1 & Hrun & Hinv & Hlen).
    cbn [interface_foreach_from].
    rewrite (bind_Return _ _ _ _ _ (interface_get_lt idx w Hlt)).
    rewrite (bind_Return _ _ w (if Z.eqb rc 0 then Continue else Break, Some rc) w1).
    2:{ rewrite (bind_Return _ _ _ _ _ Hrun). reflexivity. }
    pose proof (HP _ _ _ _ Hw Hrun) as Hw1.
    destruct (Z.eqb_spec rc 0) as [Hz|Hnz].
    + destruct (IH (S idx) (Some rc) w1)
        as (rcs & w' & Hloop & Hinv' & Hzero & Hle & Hstop & Hw');
        [lia | exact Hw1 |].
      exists (rc :: rcs), w'. rewrite Hloop. split.
      { rewrite last_cons. now destruct (last rcs). }
      split.
      { rewrite Hinv', Hinv, <- app_assoc. f_equal. simpl. f_equal.
        - f_equal. lia.
        - apply imap_ext. intros i r _. simpl. f_equal. lia. }
      split.
      { intros [|j] r Hj Hlast; simpl in *.
        - congruence.
        - apply (Hzero j r Hj). lia. }
      split; [simpl; lia|]. split; [|exact Hw'].
      destruct Hstop as [(r & Hr & Hne)|Hall].
      * left. exists r. split; [|exact Hne]. rewrite last_cons, Hr. reflexivity.
      * right. simpl. lia.
    + exists [rc], w1. split; [reflexivity|]. split.
      { rewrite Hinv. simpl. do 3 f_equal. lia. }
      split.
      { intros j r Hj Hlast. simpl in Hlast. lia. }
      split; [simpl; lia|]. split; [|exact Hw1].
      left. exists rc. split; [reflexivity|exact Hnz].
Qed.

(** [do_to_iface] over all interfaces of a non-empty table. *)
Lemma do_to_iface_all (P : world -> Prop) iface_name f context w :
  well_behaved f ->
  (forall iface w rc w',
      P w -> invoke f iface context w = Return rc w' -> P w') ->
  iface_name = "all" \/ iface_name = "ALL" ->
  interfaces w <> [] ->
  P w ->
  exists rcs rc w',
    do_to_iface iface_name f context w = Return rc w'
    /\ invoked w' = invoked w ++ invocations context (rcs ++ [rc])
    /\ Forall (fun r => r = 0) rcs
    /\ (length rcs < length (interfaces w))%nat
    /\ (rc = 0 -> S (length rcs) = length (interfaces w))
    /\ P w'.
Proof.
  intros Hf HP Hname Hne Hw. unfold do_to_iface.
  apply selects_all in Hname. rewrite Hname.
  destruct (foreach_invoke P f context Hf HP
              (length (interfaces w)) 0%nat None w eq_refl Hw)
    as (l & w' & Hloop & Hinv & Hzero & Hle & Hstop & Hw').
  assert (Hlast : exists rcs rc, l = rcs ++ [rc]).
  { destruct (last l) as [rc|] eqn:E.
    - apply last_Some in E. destruct E as [rcs ->]. eauto.
    - apply last_None in E. subst l. destruct Hstop as [(r & Hr & _)|Hlen].
      + discriminate.
      + destruct (interfaces w); [congruence|discriminate]. }
  destruct Hlast as (rcs & rc & ->).
  exists rcs, rc, w'.
  erewrite bind_Return by exact Hloop. rewrite last_snoc.
  split; [reflexivity|]. split; [exact Hinv|].
  rewrite length_app in *. simpl in *. split.
  { apply Forall_lookup. intros j r Hj. apply (Hzero j r).
    - now apply lookup_app_l_Some.
    - apply lookup_lt_Some in Hj. lia. }
  split; [lia|]. split; [|exact Hw'].
  intros Hrc. destruct Hstop as [(r & Hr & Hnz)|Hall]; [|lia].
  rewrite last_snoc in Hr. congruence.
Qed.


(** *** What the printing functions write *)

Lemma for_each_prints {A} (body : A -> M unit) (g : A -> list printed) l w :
  (forall x w, body x w = Return tt (add_stdouts (g x) w)) ->
  for_each l body w = Return tt (add_stdouts (flat_map g l) w).
Proof.
  intros Hbody. revert w. induction l as [|x l IH]; intros w; simpl.
  - unfold ret. now rewrite world_eta.
  - rewrite (bind_Return _ _ _ _ _ (Hbody x w)), IH.
    now rewrite add_stdouts_app.
Qed.

Lemma deref_Some iface s w :
  interfaces w !! iface = Some s -> deref iface w = Return s w.
Proof. intros H. unfold deref. now rewrite H. Qed.

Lemma get_run {A} (f : world -> A) w : get f w = Return (f w) w.
Proof. reflexivity. Qed.

Lemma bind_assoc {A B D} (m : M A) (k : A -> M B) (k' : B -> M D) w :
  bind (bind m k) k' w = bind m (fun a => bind (k a) k') w.
Proof. unfold bind. now destruct (m w). Qed.

Lemma bind_ret {A B} (a : A) (k : A -> M B) w : bind (ret a) k w = k a w.
Proof. reflexivity. Qed.

Ltac print_step :=
  first
    [ rewrite bind_assoc
    | rewrite bind_ret
    | rewrite (bind_Return _ _ _ _ _ (printf_prints _ _ _))
    | rewrite (bind_Return _ _ _ _ _ (get_run _ _))
    | rewrite printf_prints
    | erewrite bind_Return by (apply deref_Some; simpl; eassumption) ].

Ltac finish_print :=
  rewrite ?add_stdouts_app; simpl; rewrite <- ?app_assoc; reflexivity.

Lemma usage_loop_prints n : forall idx w,
  (idx + n = length (interfaces w))%nat ->
  interface_foreach_from n idx
    (fun iface (_ : unit) =>
       let* s := deref iface in
       printf "  %s" [ArgS (name s)] ;;
       (if negb (Z.eqb (switch_portid s) INVALID_PORT)
        then printf "\t(switch port %d)\n" [ArgN (switch_portid s)]
        else printf "\t(no switch port)\n" []) ;;
       ret (Continue, tt))
    tt w
  = Return tt
      (add_stdouts (flat_map interface_usage_line (drop idx (interfaces w))) w).
Proof.
  induction n as [|n IH]; intros idx w Hn.
  - simpl. rewrite drop_ge by lia. unfold ret. now rewrite world_eta.
  - assert (Hlt : (idx < length (interfaces w))%nat) by lia.
    destruct (lookup_lt_is_Some_2 _ _ Hlt) as [s Hs].
    cbn [interface_foreach_from].
    rewrite (bind_Return _ _ _ _ _ (interface_get_lt idx w Hlt)).
    rewrite (bind_Return _ _ w (Continue, tt)
               (add_stdouts (interface_usage_line s) w)).
    + rewrite IH by (simpl; lia). simpl interfaces.
      rewrite add_stdouts_app, (drop_S _ _ _ Hs). reflexivity.
    + repeat print_step. unfold interface_usage_line.
      destruct (negb (Z.eqb (switch_portid s) INVALID_PORT));
        repeat print_step; unfold ret; rewrite ?add_stdouts_app; do 2 f_equal;
    generalize (vreg_lines (vsys_vreg s)), (vreg_lines (refclk_vreg s));
    intros l1 l2; rewrite <- ?app_assoc; simpl; rewrite ?app_nil_r;
    reflexivity.
Qed.

Lemma print_interface_usage_prints w :
  print_interface_usage w
  = Return tt (add_stdouts (interface_usage_lines (interfaces w)) w).
Proof.
  unfold print_interface_usage, interface_usage_lines.
  repeat print_step. unfold interface_foreach.
  rewrite usage_loop_prints by reflexivity. simpl interfaces.
  rewrite drop_0. finish_print.
Qed.

Lemma imap_pair_lines {A} (g : nat -> A -> printed) (h : nat -> nat) l :
  flat_map (fun '(i, r) => [g i r]) (imap (fun i r => (h i, r)) l)
  = imap (fun i r => g (h i) r) l.
Proof.
  revert h. induction l as [|x l IH]; intros h; [reflexivity|].
  rewrite !imap_cons. simpl. f_equal. apply (IH (h ∘ S)).
Qed.

Lemma dumpstate_vreg_prints v w :
  dumpstate_vreg v w = Return tt (add_stdouts (vreg_lines v) w).
Proof.
  unfold dumpstate_vreg, vreg_lines.
  print_step.
  rewrite (bind_Return _ _ _ tt
             (add_stdouts (if vregs v is None
                           then [Printf "\t\t(no vregs)\n" []] else [])
                (add_stdouts [Printf "\tvreg: %s\n" [ArgS (vreg_name v)]] w))).
  2:{ destruct (vregs v); [unfold ret; now rewrite world_eta | reflexivity]. }
  repeat print_step.
  rewrite (for_each_prints _ (fun '(i, r) => [rail_line i r])).
  2:{ intros [i r] w0. reflexivity. }
  rewrite !add_stdouts_app. do 4 f_equal. simpl. do 3 f_equal.
  apply (imap_pair_lines rail_line id).
Qed.

Ltac print_step ::=
  first
    [ rewrite bind_assoc
    | rewrite bind_ret
    | rewrite (bind_Return _ _ _ _ _ (printf_prints _ _ _))
    | rewrite (bind_Return _ _ _ _ _ (get_run _ _))
    | rewrite (bind_Return _ _ _ _ _ (dumpstate_vreg_prints _ _))
    | rewrite printf_prints
    | erewrite bind_Return by (apply deref_Some; simpl; eassumption) ].

Lemma dumpstate_func_prints iface context s w :
  interfaces w !! iface = Some s ->
  dumpstate_func iface context w
  = Return 0 (add_stdouts (dumpstate_lines (interfaces w) s) w).
Proof.
  intros Hs.
  unfold dumpstate_func, dumpstate_lines, port_lines, wake_lines,
    detect_lines, interface_get_hotplug_state_atomic.
  rewrite (bind_Return _ _ _ _ _ (deref_Some _ _ _ Hs)).
  destruct (Z.eqb (switch_portid s) INVALID_PORT),
    (interface_is_module_port s),
    (Z.eqb (if_type s) ARA_IFACE_TYPE_MODULE_PORT2);
    repeat print_step; unfold ret; rewrite ?add_stdouts_app; do 2 f_equal;
    generalize (vreg_lines (vsys_vreg s)), (vreg_lines (refclk_vreg s));
    intros l1 l2; rewrite <- ?app_assoc; simpl; rewrite ?app_nil_r;
    reflexivity.
Qed.

(** *** [strtol] *)

Lemma isdigit_value c : isdigit c = true -> 0 <= digit_value c <= 9.
Proof.
  unfold isdigit, digit_value. rewrite andb_true_iff, !Nat.leb_le. lia.
Qed.

Lemma accumulate_nonneg s : forall acc, 0 <= acc -> 0 <= accumulate s acc.
Proof.
  induction s as [|c s IH]; intros acc Hacc; simpl; [exact Hacc|].
  destruct (isdigit c) eqn:Hc; [|exact Hacc].
  apply IH. apply isdigit_value in Hc. lia.
Qed.

Lemma strtol_range s : LONG_MIN <= strtol s <= LONG_MAX.
Proof.
  unfold strtol, LONG_MIN, LONG_MAX.
  destruct (skipspace s) as [|c rest]; [lia|].
  pose proof (accumulate_nonneg rest 0 (Z.le_refl 0)).
  pose proof (accumulate_nonneg (String c rest) 0 (Z.le_refl 0)).
  destruct (Ascii.eqb c "-"); [lia|]. destruct (Ascii.eqb c "+"); lia.
Qed.

Lemma to_int_strtol s : to_int (strtol s) = strtol s.
Proof.
  pose proof (strtol_range s) as H. unfold LONG_MIN, LONG_MAX in H.
  unfold to_int. rewrite Z.mod_small; lia.
Qed.

Lemma no_digit_cons c s :
  no_digit (String c s) <-> isdigit c = false /\ no_digit s.
Proof.
  unfold no_digit. simpl.
  exact (Forall_cons (fun c => isdigit c = false) c (list_ascii_of_string s)).
Qed.

Lemma no_digit_skipspace s : no_digit s -> no_digit (skipspace s).
Proof.
  induction s as [|c s IH]; intros H; simpl; [exact H|].
  destruct (isspace c); [|exact H]. apply IH. now apply no_digit_cons in H.
Qed.

Lemma accumulate_no_digit s acc : no_digit s -> accumulate s acc = acc.
Proof.
  destruct s as [|c s]; [reflexivity|]. intros [Hc _]%no_digit_cons.
  simpl. now rewrite Hc.
Qed.

Lemma strtol_no_digit s : no_digit s -> strtol s = 0.
Proof.
  intros H%no_digit_skipspace. unfold strtol.
  destruct (skipspace s) as [|c rest]; [reflexivity|].
  rewrite (accumulate_no_digit _ 0 H).
  apply no_digit_cons in H as [_ H]. rewrite (accumulate_no_digit _ 0 H).
  destruct (Ascii.eqb c "-"); [reflexivity|].
  destruct (Ascii.eqb c "+"); reflexivity.
Qed.

(** *** The per-interface functions *)

Lemma core_call_run c iface prim s w :
  interfaces w !! iface = Some s ->
  exists w',
    core_call c iface prim w = Return (fst (prim s (board w))) w'
    /\ calls w' = calls w ++ [c]
    /\ invoked w' = invoked w
    /\ wakeout_length_default w' = wakeout_length_default w
    /\ stdout w' = stdout w
    /\ length (interfaces w') = length (interfaces w).
Proof.
  intros Hs. unfold core_call. rewrite Hs.
  destruct (prim s (board w)) as [rc [s' b']]. eexists. split; [reflexivity|].
  simpl. rewrite length_insert. auto.
Qed.

Lemma core_call_inv c iface prim w rc w' :
  core_call c iface prim w = Return rc w' ->
  calls w' = calls w ++ [c]
  /\ invoked w' = invoked w
  /\ wakeout_length_default w' = wakeout_length_default w.
Proof.
  unfold core_call. destruct (interfaces w !! iface) as [s|]; [|discriminate].
  destruct (prim s (board w)) as [rc0 [s' b']]. intros [= <- <-]. auto.
Qed.

Lemma set_power_func_call iface enable w :
  set_power_func iface enable w
  = core_call (power_call enable iface) iface
      (if Z.eqb enable 0 then power_off else power_on) w.
Proof.
  unfold set_power_func, power_call. now destruct (Z.eqb enable 0).
Qed.

Lemma core_call_well_behaved (c : iface_ptr -> Z -> call)
    (prim : Z -> interface -> hw -> Z * (interface * hw)) :
  well_behaved (fun iface context => core_call (c iface context) iface (prim context)).
Proof.
  intros iface context w Hlt.
  destruct (lookup_lt_is_Some_2 _ _ Hlt) as [s Hs].
  destruct (core_call_run (c iface context) iface (prim context) s w Hs)
    as (w' & Hrun & _ & Hinv & _ & _ & Hlen).
  eauto.
Qed.

Lemma set_power_func_well_behaved : well_behaved set_power_func.
Proof.
  intros iface context w Hlt. rewrite set_power_func_call.
  apply (core_call_well_behaved (fun i e => power_call e i)
           (fun e => if Z.eqb e 0 then power_off else power_on)
           iface context w Hlt).
Qed.

Lemma wakeout_func_well_behaved : well_behaved wakeout_func.
Proof.
  apply (core_call_well_behaved (fun i len => CallWakeout i false len)
           (fun len s => generate_wakeout s false len)).
Qed.

Lemma dumpstate_func_well_behaved : well_behaved dumpstate_func.
Proof.
  intros iface context w Hlt.
  destruct (lookup_lt_is_Some_2 _ _ Hlt) as [s Hs].
  rewrite (dumpstate_func_prints _ _ _ _ Hs). eauto.
Qed.

Lemma verb_func_well_behaved f : verb_func f -> well_behaved f.
Proof.
  intros [->|[->| ->]].
  - apply set_power_func_well_behaved.
  - apply wakeout_func_well_behaved.
  - apply dumpstate_func_well_behaved.
Qed.

(** The loop from index [idx] over the [n] interfaces that remain calls
    [f] on them in turn, each call in the world the one before left;
    every call but the last returned 0; the loop stops early only on a
    non-zero result; [rc] holds the result of the last call. *)
Lemma foreach_calls_in_turn f context :
  well_behaved f ->
  forall n idx (acc : option Z) w,
    (idx + n = length (interfaces w))%nat ->
    exists rcs w',
      interface_foreach_from n idx
        (fun iface (_ : option Z) =>
           let* rc := invoke f iface context in
           ret (if Z.eqb rc 0 then Continue else Break, Some rc))
        acc w
      = Return (if last rcs is Some rc then Some rc else acc) w'
      /\ calls_in_turn f context idx w rcs w'
      /\ invoked w'
         = invoked w ++ imap (fun i r => Invoked (idx + i)%nat context r) rcs
      /\ (forall j r, rcs !! j = Some r -> (S j < length rcs)%nat -> r = 0)
      /\ (length rcs <= n)%nat
      /\ ((exists r, last rcs = Some r /\ r <> 0) \/ length rcs = n).
Proof.
  intros Hf. induction n as [|n IH]; intros idx acc w Hn.
  - exists [], w. simpl. rewrite app_nil_r.
    repeat split; auto. intros j r Hj. discriminate.
  - assert (Hlt : (idx < length (interfaces w))%nat) by lia.
    destruct (Hf idx context w Hlt) as (rc & w1 & Hrun & Hinv & Hlen).
    set (w2 := add_invoked (Invoked idx context rc) w1).
    assert (Hinvoke : invoke f idx context w = Return rc w2).
    { unfold invoke. now rewrite (bind_Return _ _ _ _ _ Hrun). }
    cbn [interface_foreach_from].
    rewrite (bind_Return _ _ _ _ _ (interface_get_lt idx w Hlt)).
    rewrite (bind_Return _ _ w (if Z.eqb rc 0 then Continue else Break, Some rc) w2).
    2:{ rewrite (bind_Return _ _ _ _ _ Hinvoke). reflexivity. }
    destruct (Z.eqb_spec rc 0) as [Hz|Hnz].
    + destruct (IH (S idx) (Some rc) w2)
        as (rcs & w' & Hloop & Hturn & Hinv' & Hzero & Hle & Hstop).
      { unfold w2. simpl. lia. }
      exists (rc :: rcs), w'. rewrite Hloop. split.
      { rewrite last_cons. now destruct (last rcs). }
      split; [exists w1; split; [exact Hrun|exact Hturn]|].
      split.
      { rewrite Hinv'. unfold w2. simpl. rewrite Hinv, <- app_assoc.
        f_equal. simpl. f_equal.
        - f_equal. lia.
        - apply imap_ext. intros i r _. simpl. f_equal. lia. }
      split.
      { intros [|j] r Hj Hlast; simpl in *.
        - congruence.
        - apply (Hzero j r Hj). lia. }
      split; [simpl; lia|].
      destruct Hstop as [(r & Hr & Hne)|Hall].
      * left. exists r. split; [|exact Hne]. rewrite last_cons, Hr. reflexivity.
      * right. simpl. lia.
    + exists [rc], w2. split; [reflexivity|].
      split; [exists w1; split; [exact Hrun|reflexivity]|].
      split.
      { unfold w2. simpl. rewrite Hinv. do 3 f_equal. lia. }
      split.
      { intros j r Hj Hlast. simpl in Hlast. lia. }
      split; [simpl; lia|].
      left. exists rc. split; [reflexivity|exact Hnz].
Qed.

(** [do_to_iface] over all interfaces of a non-empty table: the calls
    of [f] it makes, one after the other from the first interface on,
    and what it returns. *)
Lemma do_to_iface_all_calls_in_turn iface_name f context w :
  well_behaved f ->
  iface_name = "all" \/ iface_name = "ALL" ->
  interfaces w <> [] ->
  exists rcs rc w',
    do_to_iface iface_name f context w = Return rc w'
    /\ calls_in_turn f context 0 w (rcs ++ [rc]) w'
    /\ invoked w' = invoked w ++ invocations context (rcs ++ [rc])
    /\ Forall (fun r => r = 0) rcs
    /\ (length rcs < length (interfaces w))%nat
    /\ (rc = 0 -> S (length rcs) = length (interfaces w)).
Proof.
  intros Hf Hname Hne. unfold do_to_iface.
  apply selects_all in Hname. rewrite Hname.
  destruct (foreach_calls_in_turn f context Hf
              (length (interfaces w)) 0%nat None w eq_refl)
    as (l & w' & Hloop & Hturn & Hinv & Hzero & Hle & Hstop).
  assert (Hlast : exists rcs rc, l = rcs ++ [rc]).
  { destruct (last l) as [rc|] eqn:E.
    - apply last_Some in E. destruct E as [rcs ->]. eauto.
    - apply last_None in E. subst l. destruct Hstop as [(r & Hr & _)|Hlen].
      + discriminate.
      + destruct (interfaces w); [congruence|discriminate]. }
  destruct Hlast as (rcs & rc & ->).
  exists rcs, rc, w'.
  erewrite bind_Return by exact Hloop. rewrite last_snoc.
  split; [reflexivity|]. split; [exact Hturn|]. split; [exact Hinv|].
  rewrite length_app in *. simpl in *. split.
  { apply Forall_lookup. intros j r Hj. apply (Hzero j r).
    - now apply lookup_app_l_Some.
    - apply lookup_lt_Some in Hj. lia. }
  split; [lia|].
  intros Hrc. destruct Hstop as [(r & Hr & Hnz)|Hall]; [|lia].
  rewrite last_snoc in Hr. congruence.
Qed.

(** C1. Applied to "all" (or "ALL") on a non-empty interface table with
    the function of the power, wakeout or dumpstate verb, [do_to_iface]
    calls the function on the interfaces in registration order,
    starting with the first, each call in the world that the call
    before left; it returns the result of the last call it made and the
    world that call left; every earlier call returned 0; and it stops
    before the end of the table only when that last result is not 0, in
    which case no later interface is called.  If every call returns 0,
    all interfaces are called and the result is 0. *)
Theorem do_to_iface_all_short_circuits
    (iface_name : string) (f : iface_ptr -> Z -> M Z) (context : Z) (w : world) :
  verb_func f ->
  iface_name = "all" \/ iface_name = "ALL" ->
  interfaces w <> [] ->
  exists rcs rc w',
    do_to_iface iface_name f context w = Return rc w'
    /\ calls_in_turn f context 0 w (rcs ++ [rc]) w'
    /\ invoked w' = invoked w ++ invocations context (rcs ++ [rc])
    /\ Forall (fun r => r = 0) rcs
    /\ (length rcs < length (interfaces w))%nat
    /\ (rc = 0 -> S (length rcs) = length (interfaces w)).
Proof.
  intros Hf Hname Hne. apply verb_func_well_behaved in Hf.
  now apply do_to_iface_all_calls_in_turn.
Qed.

(** *** The registry lookup *)

Lemma interface_get_by_name_None iface_name w :
  not_configured iface_name w ->
  interface_get_by_name iface_name w = Return None w.
Proof.
  intros H. unfold interface_get_by_name, get, not_configured in *.
  apply (list_find_None (fun s => name s = iface_name)) in H. now rewrite H.
Qed.

Lemma interface_get_by_name_Some iface_name iface w :
  configured_at iface_name iface w ->
  interface_get_by_name iface_name w = Return (Some iface) w.
Proof.
  intros [(s & Hs & Hname) Hfirst]. unfold interface_get_by_name, get.
  assert (H : list_find (fun s => name s = iface_name) (interfaces w)
              = Some (iface, s)).
  { apply list_find_Some. split; [exact Hs|]. split; [exact Hname|].
    intros j y Hj Hlt. now apply (Hfirst j y). }
  now rewrite H.
Qed.

Lemma not_all iface_name :
  iface_name <> "all" -> iface_name <> "ALL" ->
  streq iface_name "all" || streq iface_name "ALL" = false.
Proof.
  intros H1 H2. apply not_true_is_false. rewrite selects_all. tauto.
Qed.

Lemma same_state_refl w : same_state w w.
Proof. repeat split. Qed.

Lemma same_state_stdouts out w : same_state w (add_stdouts out w).
Proof. repeat split. Qed.

Lemma do_to_iface_rejects iface_name f context w :
  iface_name <> "all" -> iface_name <> "ALL" ->
  not_configured iface_name w ->
  rejected (do_to_iface iface_name f context w) w.
Proof.
  intros H1 H2 Hnone. unfold do_to_iface. rewrite (not_all _ H1 H2).
  rewrite (bind_Return _ _ _ _ _ (interface_get_by_name_None _ _ Hnone)).
  rewrite (bind_Return _ _ _ _ _ (printf_prints _ _ _)).
  rewrite (bind_Return _ _ _ _ _ (print_interface_usage_prints _)).
  rewrite add_stdouts_app. unfold ret, rejected. eexists. split; [reflexivity|].
  split; [apply same_state_stdouts | reflexivity].
Qed.

Lemma do_to_iface_named iface_name iface f context w :
  iface_name <> "all" -> iface_name <> "ALL" ->
  configured_at iface_name iface w ->
  do_to_iface iface_name f context w = invoke f iface context w.
Proof.
  intros H1 H2 Hat. unfold do_to_iface. rewrite (not_all _ H1 H2).
  now rewrite (bind_Return _ _ _ _ _ (interface_get_by_name_Some _ _ _ Hat)).
Qed.

(** *** The verbs, once their arguments are counted *)

Lemma cmd_set_power_args p v iface_name a w :
  cmd_set_power [p; v; iface_name; a] w
  = do_to_iface iface_name set_power_func (to_int (strtol a)) w.
Proof. reflexivity. Qed.

Lemma cmd_wakeout_default p v iface_name w :
  cmd_wakeout [p; v; iface_name] w
  = do_to_iface iface_name wakeout_func (wakeout_length_default w) w.
Proof. reflexivity. Qed.

Lemma cmd_wakeout_args p v iface_name a w :
  cmd_wakeout [p; v; iface_name; a] w
  = do_to_iface iface_name wakeout_func (to_int (strtol a)) w.
Proof. reflexivity. Qed.

Lemma cmd_dumpstate_args p v iface_name w :
  cmd_dumpstate [p; v; iface_name] w
  = do_to_iface iface_name dumpstate_func 0 w.
Proof. reflexivity. Qed.

(** [main] hands the arguments to the verb named by [argv[1]], by its
    long name or by its letter. *)
Lemma power_main_dispatch (c : cmd) p rest w :
  power_main (p :: longc c :: rest) w
  = command_func c (p :: longc c :: rest) w
  /\ power_main (p :: String (shortc c) EmptyString :: rest) w
     = command_func c (p :: String (shortc c) EmptyString :: rest) w.
Proof. destruct c; split; reflexivity. Qed.

(** C4. A name that is neither "all" nor "ALL" and that no configured
    interface bears (the comparison is exact, and so case-sensitive)
    makes [do_to_iface], whatever function it is handed, and with it the
    verbs power, wakeout and dumpstate, fail with [-EINVAL], a negative
    value; the function is not called: nothing is recorded in [invoked],
    no primitive of the core is called, and the interface table, the
    board and the default wakeout length are as before. *)
Theorem unknown_interface_is_rejected (iface_name : string) (w : world) :
  iface_name <> "all" ->
  iface_name <> "ALL" ->
  not_configured iface_name w ->
  - EINVAL < 0
  /\ (forall f context, rejected (do_to_iface iface_name f context w) w)
  /\ (forall p v a, rejected (cmd_set_power [p; v; iface_name; a] w) w)
  /\ (forall p v, rejected (cmd_wakeout [p; v; iface_name] w) w)
  /\ (forall p v a, rejected (cmd_wakeout [p; v; iface_name; a] w) w)
  /\ (forall p v, rejected (cmd_dumpstate [p; v; iface_name] w) w).
Proof.
  intros H1 H2 Hnone. pose proof EINVAL_pos.
  split; [lia|]. repeat split; intros.
  - now apply do_to_iface_rejects.
  - rewrite cmd_set_power_args. now apply do_to_iface_rejects.
  - rewrite cmd_wakeout_default. now apply do_to_iface_rejects.
  - rewrite cmd_wakeout_args. now apply do_to_iface_rejects.
  - rewrite cmd_dumpstate_args. now apply do_to_iface_rejects.
Qed.

(** C9. The two strings "all" and "ALL", and no other, make
    [do_to_iface] go over the interfaces: on a non-empty table the
    function is called on them in turn from the first one on, whatever
    the interfaces are named, until a call returns non-zero, and both
    strings behave alike.  Any other name is looked up as the name of
    an interface: when the table has an interface of exactly that name,
    the function is called once, on the first such interface and on no
    other, and its result and the world it leaves are returned; when it
    has none, the call fails with [-EINVAL] and the function is not
    called. *)
Theorem only_all_and_ALL_select_all
    (iface_name : string) (f : iface_ptr -> Z -> M Z) (context : Z) (w : world) :
  (iface_name <> "all" ->
   iface_name <> "ALL" ->
   (forall iface,
       configured_at iface_name iface w ->
       well_behaved f ->
       exists rc w1,
         f iface context w = Return rc w1
         /\ do_to_iface iface_name f context w
            = Return rc (add_invoked (Invoked iface context rc) w1)
         /\ invoked (add_invoked (Invoked iface context rc) w1)
            = invoked w ++ [Invoked iface context rc])
   /\ (not_configured iface_name w ->
       rejected (do_to_iface iface_name f context w) w))
  /\ (iface_name = "all" \/ iface_name = "ALL" ->
      well_behaved f ->
      interfaces w <> [] ->
      exists rcs rc w',
        do_to_iface iface_name f context w = Return rc w'
        /\ calls_in_turn f context 0 w (rcs ++ [rc]) w'
        /\ Forall (fun r => r = 0) rcs
        /\ (length rcs < length (interfaces w))%nat
        /\ (rc = 0 -> S (length rcs) = length (interfaces w)))
  /\ do_to_iface "ALL" f context w = do_to_iface "all" f context w.
Proof.
  split; [|split].
  - intros H1 H2. split.
    + intros iface Hat Hf. rewrite (do_to_iface_named _ _ _ _ _ H1 H2 Hat).
      destruct Hat as [(s & Hs & _) _]. apply lookup_lt_Some in Hs.
      destruct (Hf iface context w Hs) as (rc & w1 & Hrun & Hinv & _).
      exists rc, w1. split; [exact Hrun|]. split.
      * unfold invoke. now rewrite (bind_Return _ _ _ _ _ Hrun).
      * simpl. now rewrite Hinv.
    + intros Hnone. now apply do_to_iface_rejects.
  - intros Hall Hf Hne.
    destruct (do_to_iface_all_calls_in_turn iface_name f context w Hf Hall Hne)
      as (rcs & rc & w' & Hrun & Hturn & _ & Hzero & Hlt & Hlen).
    exists rcs, rc, w'. auto.
  - reflexivity.
Qed.

(** *** Properties kept by [do_to_iface] *)

Lemma do_to_iface_keeps (P : world -> Prop) iface_name f context w rc w' :
  well_behaved f ->
  (forall iface w rc w',
      P w -> invoke f iface context w = Return rc w' -> P w') ->
  (forall out w, P w -> P (add_stdouts out w)) ->
  P w ->
  do_to_iface iface_name f context w = Return rc w' ->
  P w'.
Proof.
  intros Hf HP Hout Hw Hrun.
  destruct (streq iface_name "all" || streq iface_name "ALL") eqn:Hall.
  - apply selects_all in Hall.
    destruct (interfaces w) as [|s0 table] eqn:Htable.
    + unfold do_to_iface in Hrun. apply selects_all in Hall.
      rewrite Hall in Hrun. unfold bind, interface_foreach in Hrun.
      rewrite Htable in Hrun. discriminate.
    + destruct (do_to_iface_all P iface_name f context w)
        as (rcs & rc0 & w0 & Hrun0 & _ & _ & _ & _ & Hw0); auto.
      { now rewrite Htable. }
      congruence.
  - unfold do_to_iface in Hrun. rewrite Hall in Hrun.
    unfold interface_get_by_name in Hrun.
    rewrite (bind_Return _ _ _ _ _ (get_run _ _)) in Hrun.
    destruct (fst <$> list_find _ (interfaces w)) as [iface|].
    + now apply (HP iface w rc w').
    + rewrite (bind_Return _ _ _ _ _ (printf_prints _ _ _)) in Hrun.
      rewrite (bind_Return _ _ _ _ _ (print_interface_usage_prints _)) in Hrun.
      injection Hrun as _ <-. auto.
Qed.

Lemma invoke_core_call_follows (ev : invocation -> call) f context w0 :
  (forall iface w, exists prim,
      f iface context w
      = core_call (ev (Invoked iface context 0)) iface prim w) ->
  (forall i c r r', ev (Invoked i c r) = ev (Invoked i c r')) ->
  forall iface w rc w',
    calls_follow ev w0 w /\ wakeout_length_default w = wakeout_length_default w0 ->
    invoke f iface context w = Return rc w' ->
    calls_follow ev w0 w' /\ wakeout_length_default w' = wakeout_length_default w0.
Proof.
  intros Hcall Hev iface w rc w' [(l & Hinv & Hcalls) Hlen] Hrun.
  unfold invoke, bind in Hrun.
  destruct (f iface context w) as [rc1 w1| |] eqn:Hf; try discriminate.
  simpl in Hrun. injection Hrun as <- <-.
  destruct (Hcall iface w) as [prim Hprim]. rewrite Hprim in Hf.
  apply core_call_inv in Hf as (Hc & Hi & Hd).
  split; [|simpl; congruence].
  exists (l ++ [Invoked iface context rc1]). simpl.
  rewrite Hi, Hinv, Hc, Hcalls, map_app, <- !app_assoc. simpl.
  rewrite (Hev iface context rc1 0). auto.
Qed.

Lemma calls_follow_refl ev w :
  calls_follow ev w w /\ wakeout_length_default w = wakeout_length_default w.
Proof. split; [exists []; simpl; now rewrite !app_nil_r | reflexivity]. Qed.

(** On any selection, a function that is one call into the core leaves
    one call in [calls] for each record in [invoked], and does not
    change the default wakeout length. *)
Lemma do_to_iface_calls_follow (ev : invocation -> call) iface_name f context w rc w' :
  well_behaved f ->
  (forall iface w, exists prim,
      f iface context w
      = core_call (ev (Invoked iface context 0)) iface prim w) ->
  (forall i c r r', ev (Invoked i c r) = ev (Invoked i c r')) ->
  do_to_iface iface_name f context w = Return rc w' ->
  calls_follow ev w w'
  /\ wakeout_length_default w' = wakeout_length_default w.
Proof.
  intros Hf Hcall Hev Hrun.
  apply (do_to_iface_keeps
           (fun w1 => calls_follow ev w w1
                      /\ wakeout_length_default w1 = wakeout_length_default w)
           iface_name f context w rc w'); auto.
  - now apply invoke_core_call_follows.
  - apply calls_follow_refl.
Qed.

Lemma set_power_calls_follow iface_name enable w rc w' :
  do_to_iface iface_name set_power_func enable w = Return rc w' ->
  calls_follow (fun i => power_call enable (inv_iface i)) w w'.
Proof.
  intros Hrun.
  apply (do_to_iface_calls_follow
           (fun i => power_call enable (inv_iface i))) in Hrun; [tauto|..].
  - apply set_power_func_well_behaved.
  - intros iface w1. eexists. apply set_power_func_call.
  - reflexivity.
Qed.

Lemma wakeout_calls_follow iface_name len w rc w' :
  do_to_iface iface_name wakeout_func len w = Return rc w' ->
  calls_follow (fun i => CallWakeout (inv_iface i) false len) w w'
  /\ wakeout_length_default w' = wakeout_length_default w.
Proof.
  intros Hrun.
  apply (do_to_iface_calls_follow
           (fun i => CallWakeout (inv_iface i) false len)) in Hrun; [tauto|..].
  - apply wakeout_func_well_behaved.
  - intros iface w1. eexists. reflexivity.
  - reflexivity.
Qed.

(** A verb on a configured interface name, for a function that is one
    call into the core. *)
Lemma do_to_iface_named_call iface_name iface s c prim f context w :
  iface_name <> "all" -> iface_name <> "ALL" ->
  configured_at iface_name iface w ->
  interfaces w !! iface = Some s ->
  (forall w, f iface context w = core_call c iface prim w) ->
  exists w',
    do_to_iface iface_name f context w = Return (fst (prim s (board w))) w'
    /\ calls w' = calls w ++ [c]
    /\ invoked w' = invoked w ++ [Invoked iface context (fst (prim s (board w)))]
    /\ wakeout_length_default w' = wakeout_length_default w.
Proof.
  intros H1 H2 Hat Hs Hf. rewrite (do_to_iface_named _ _ _ _ _ H1 H2 Hat).
  destruct (core_call_run c iface prim s w Hs)
    as (w1 & Hrun & Hc & Hi & Hd & _ & _).
  unfold invoke. erewrite bind_Return by (rewrite Hf; exact Hrun). simpl.
  eexists. split; [reflexivity|]. simpl. rewrite Hc, Hi, Hd. auto.
Qed.

(** C5. Called on an interface with a non-zero [enable], the function of
    the power verb makes one call into the core, of
    [interface_power_on_atomic] on that interface, and returns what the
    primitive returns; with [enable] zero the one call is of
    [interface_power_off_atomic].  The verb on the name of a configured
    interface returns the result of that call, and on any selection it
    makes one such call for each interface it visits, in order. *)
Theorem set_power_calls_the_primitive_once (w : world) :
  (forall iface s enable,
      interfaces w !! iface = Some s ->
      (enable <> 0 ->
       exists w',
         set_power_func iface enable w = Return (fst (power_on s (board w))) w'
         /\ calls w' = calls w ++ [CallPowerOn iface])
      /\ (enable = 0 ->
          exists w',
            set_power_func iface enable w
            = Return (fst (power_off s (board w))) w'
            /\ calls w' = calls w ++ [CallPowerOff iface]))
  /\ (forall p v iface_name a iface s,
        iface_name <> "all" -> iface_name <> "ALL" ->
        configured_at iface_name iface w ->
        interfaces w !! iface = Some s ->
        exists w',
          cmd_set_power [p; v; iface_name; a] w
          = Return (fst ((if Z.eqb (strtol a) 0
                          then power_off else power_on) s (board w))) w'
          /\ calls w' = calls w ++ [power_call (strtol a) iface])
  /\ (forall p v selection a rc w',
        cmd_set_power [p; v; selection; a] w = Return rc w' ->
        calls_follow (fun i => power_call (strtol a) (inv_iface i)) w w').
Proof.
  split; [|split].
  - intros iface s enable Hs. split.
    + intros Hne. rewrite set_power_func_call. unfold power_call.
      apply Z.eqb_neq in Hne. rewrite Hne.
      destruct (core_call_run (CallPowerOn iface) iface power_on s w Hs)
        as (w' & Hrun & Hc & _). eauto.
    + intros ->. rewrite set_power_func_call. simpl.
      destruct (core_call_run (CallPowerOff iface) iface power_off s w Hs)
        as (w' & Hrun & Hc & _). eauto.
  - intros p v iface_name a iface s H1 H2 Hat Hs.
    rewrite cmd_set_power_args, to_int_strtol.
    destruct (do_to_iface_named_call iface_name iface s
                (power_call (strtol a) iface)
                (if Z.eqb (strtol a) 0 then power_off else power_on)
                set_power_func (strtol a) w H1 H2 Hat Hs)
      as (w' & Hrun & Hc & _).
    { intros w1. apply set_power_func_call. }
    eauto.
  - intros p v selection a rc w' Hrun.
    rewrite cmd_set_power_args, to_int_strtol in Hrun.
    now apply set_power_calls_follow in Hrun.
Qed.

(** C7. The default wakeout length is -1 when the program is loaded.
    The wakeout verb without a length argument pulses the interface it
    names with the default length of the moment; with a length argument
    it pulses it with the parsed length, whatever the default; in both
    cases every call into the core it makes, on any selection, is a
    pulse of that length, and the default is left as it was.  The
    wakeout_length verb with an argument stores the parsed length as the
    default; without an argument it leaves the default unchanged. *)
Theorem wakeout_uses_the_default_length (w : world) :
  (forall table b, wakeout_length_default (initial_world table b) = -1)
  /\ (forall p v iface_name iface s,
        iface_name <> "all" -> iface_name <> "ALL" ->
        configured_at iface_name iface w ->
        interfaces w !! iface = Some s ->
        exists w',
          cmd_wakeout [p; v; iface_name] w
          = Return (fst (generate_wakeout s false (wakeout_length_default w)
                                          (board w))) w'
          /\ calls w'
             = calls w ++ [CallWakeout iface false (wakeout_length_default w)])
  /\ (forall p v iface_name a iface s,
        iface_name <> "all" -> iface_name <> "ALL" ->
        configured_at iface_name iface w ->
        interfaces w !! iface = Some s ->
        exists w',
          cmd_wakeout [p; v; iface_name; a] w
          = Return (fst (generate_wakeout s false (strtol a) (board w))) w'
          /\ calls w' = calls w ++ [CallWakeout iface false (strtol a)])
  /\ (forall p v selection rc w',
        cmd_wakeout [p; v; selection] w = Return rc w' ->
        calls_follow
          (fun i => CallWakeout (inv_iface i) false (wakeout_length_default w))
          w w'
        /\ wakeout_length_default w' = wakeout_length_default w)
  /\ (forall p v selection a rc w',
        cmd_wakeout [p; v; selection; a] w = Return rc w' ->
        calls_follow (fun i => CallWakeout (inv_iface i) false (strtol a)) w w'
        /\ wakeout_length_default w' = wakeout_length_default w)
  /\ (forall p v a,
        exists w',
          cmd_wakeout_length [p; v; a] w = Return 0 w'
          /\ wakeout_length_default w' = strtol a)
  /\ (forall p v,
        exists w',
          cmd_wakeout_length [p; v] w = Return 0 w'
          /\ wakeout_length_default w' = wakeout_length_default w).
Proof.
  split; [reflexivity|]. split; [|split; [|split; [|split; [|split]]]].
  - intros p v iface_name iface s H1 H2 Hat Hs. rewrite cmd_wakeout_default.
    destruct (do_to_iface_named_call iface_name iface s
                (CallWakeout iface false (wakeout_length_default w))
                (fun s => generate_wakeout s false (wakeout_length_default w))
                wakeout_func (wakeout_length_default w) w H1 H2 Hat Hs)
      as (w' & Hrun & Hc & _); [reflexivity|]. eauto.
  - intros p v iface_name a iface s H1 H2 Hat Hs.
    rewrite cmd_wakeout_args, to_int_strtol.
    destruct (do_to_iface_named_call iface_name iface s
                (CallWakeout iface false (strtol a))
                (fun s => generate_wakeout s false (strtol a))
                wakeout_func (strtol a) w H1 H2 Hat Hs)
      as (w' & Hrun & Hc & _); [reflexivity|]. eauto.
  - intros p v selection rc w' Hrun. rewrite cmd_wakeout_default in Hrun.
    now apply wakeout_calls_follow in Hrun.
  - intros p v selection a rc w' Hrun.
    rewrite cmd_wakeout_args, to_int_strtol in Hrun.
    now apply wakeout_calls_follow in Hrun.
  - intros p v a. eexists. split; [reflexivity|]. simpl. apply to_int_strtol.
  - intros p v. eexists. split; reflexivity.
Qed.

(** C10. The power verb converts its last argument with [strtol]; a
    non-zero value powers the interface on, zero powers it off; a string
    without a decimal digit converts to 0 and so powers off.  Whatever
    the argument, the verb on the name of a configured interface makes
    its one call into the core and returns the result: no argument is
    rejected. *)
Theorem set_power_accepts_any_argument (a : string) (w : world) :
  (forall p v selection,
      cmd_set_power [p; v; selection; a] w
      = do_to_iface selection set_power_func (strtol a) w)
  /\ (forall p v iface_name iface s,
        iface_name <> "all" -> iface_name <> "ALL" ->
        configured_at iface_name iface w ->
        interfaces w !! iface = Some s ->
        (strtol a <> 0 ->
         exists w',
           cmd_set_power [p; v; iface_name; a] w
           = Return (fst (power_on s (board w))) w'
           /\ calls w' = calls w ++ [CallPowerOn iface])
        /\ (strtol a = 0 ->
            exists w',
              cmd_set_power [p; v; iface_name; a] w
              = Return (fst (power_off s (board w))) w'
              /\ calls w' = calls w ++ [CallPowerOff iface]))
  /\ (no_digit a -> strtol a = 0).
Proof.
  assert (Hcmd : forall p v selection,
             cmd_set_power [p; v; selection; a] w
             = do_to_iface selection set_power_func (strtol a) w).
  { intros. now rewrite cmd_set_power_args, to_int_strtol. }
  split; [exact Hcmd|]. split; [|apply strtol_no_digit].
  intros p v iface_name iface s H1 H2 Hat Hs. rewrite Hcmd.
  destruct (do_to_iface_named_call iface_name iface s
              (power_call (strtol a) iface)
              (if Z.eqb (strtol a) 0 then power_off else power_on)
              set_power_func (strtol a) w H1 H2 Hat Hs)
    as (w' & Hrun & Hc & _).
  { intros w1. apply set_power_func_call. }
  unfold power_call in *. split.
  - intros Hne. apply Z.eqb_neq in Hne. rewrite Hne in *. eauto.
  - intros Hz. rewrite Hz in *. simpl in *. eauto.
Qed.

(** *** [dumpstate] *)

Lemma invoke_dumpstate_keeps w0 iface context w rc w' :
  same_state w0 w
  /\ (exists l, invoked w = invoked w0 ++ l
                /\ Forall (fun i => inv_rc i = 0) l) ->
  invoke dumpstate_func iface context w = Return rc w' ->
  same_state w0 w'
  /\ (exists l, invoked w' = invoked w0 ++ l
                /\ Forall (fun i => inv_rc i = 0) l).
Proof.
  intros [Hsame (l & Hinv & Hzero)] Hrun. unfold invoke in Hrun.
  destruct (interfaces w !! iface) as [s|] eqn:Hs.
  - rewrite (bind_Return _ _ _ _ _ (dumpstate_func_prints _ _ _ _ Hs)) in Hrun.
    injection Hrun as <- <-. split; [exact Hsame|].
    exists (l ++ [Invoked iface context 0]). simpl.
    rewrite Hinv, <- app_assoc. split; [reflexivity|].
    apply Forall_app. split; [exact Hzero|]. now constructor.
  - unfold dumpstate_func, bind, deref in Hrun. rewrite Hs in Hrun.
    discriminate.
Qed.

(** C8. [dumpstate_func] returns 0 on every interface of the table and
    changes nothing but [stdout]: the interface table (with the
    regulator groups and the debounce state of every interface), the
    board and the default wakeout length are as before, and no primitive
    of the core is called.  The same holds for the verb on any
    selection; over "all" it visits every interface of the table, each
    call returning 0, and returns 0. *)
Theorem dumpstate_is_read_only (w : world) :
  (forall iface s context,
      interfaces w !! iface = Some s ->
      exists w',
        dumpstate_func iface context w = Return 0 w'
        /\ same_state w w'
        /\ invoked w' = invoked w)
  /\ (forall p v selection rc w',
        cmd_dumpstate [p; v; selection] w = Return rc w' -> same_state w w')
  /\ (forall p v selection,
        selection = "all" \/ selection = "ALL" ->
        interfaces w <> [] ->
        exists w',
          cmd_dumpstate [p; v; selection] w = Return 0 w'
          /\ same_state w w'
          /\ invoked w'
             = invoked w
               ++ invocations 0 (replicate (length (interfaces w)) 0)).
Proof.
  split; [|split].
  - intros iface s context Hs. rewrite (dumpstate_func_prints _ _ _ _ Hs).
    eexists. split; [reflexivity|].
    split; [apply same_state_stdouts|reflexivity].
  - intros p v selection rc w' Hrun. rewrite cmd_dumpstate_args in Hrun.
    apply (do_to_iface_keeps
             (fun w1 => same_state w w1
                        /\ exists l, invoked w1 = invoked w ++ l
                                     /\ Forall (fun i => inv_rc i = 0) l))
      in Hrun; [tauto|..].
    + apply dumpstate_func_well_behaved.
    + intros. eapply invoke_dumpstate_keeps; eassumption.
    + intros out w1 H. exact H.
    + split; [apply same_state_refl|]. exists []. now rewrite app_nil_r.
  - intros p v selection Hall Hne. rewrite cmd_dumpstate_args.
    destruct (do_to_iface_all
                (fun w1 => same_state w w1
                           /\ exists l, invoked w1 = invoked w ++ l
                                        /\ Forall (fun i => inv_rc i = 0) l)
                selection dumpstate_func 0 w)
      as (rcs & rc & w' & Hrun & Hinv & Hzero & Hlt & Hlen & Hsame & l & Hl & Hl0).
    + apply dumpstate_func_well_behaved.
    + intros. eapply invoke_dumpstate_keeps; eassumption.
    + exact Hall.
    + exact Hne.
    + split; [apply same_state_refl|]. exists []. now rewrite app_nil_r.
    + assert (Hrc : rc = 0).
      { rewrite Hinv in Hl. apply app_inv_head in Hl. subst l.
        unfold invocations in Hl0. rewrite imap_app in Hl0.
        apply Forall_app in Hl0 as [_ Hl0]. now inversion Hl0. }
      subst rc. exists w'. split; [exact Hrun|]. split; [exact Hsame|].
      rewrite Hinv. do 2 f_equal. symmetry. apply replicate_as_Forall.
      split.
      * rewrite length_app. simpl. specialize (Hlen eq_refl). lia.
      * apply Forall_app. split; [|now constructor].
        eapply Forall_impl; [exact Hzero|]. intros r Hr. now symmetry.
Qed.




End Properties.

(** C3. The hotplug state of an interface is UNKNOWN when its debounce
    state is INVALID, INACTIVE_DEBOUNCE or ACTIVE_DEBOUNCE, UNPLUGGED
    when it is INACTIVE_STABLE and PLUGGED when it is ACTIVE_STABLE; it
    depends on nothing else. *)
Theorem hotplug_state_follows_debounce_state (iface : interface) :
  (db_state (detect_in iface) = WD_ST_INVALID
   \/ db_state (detect_in iface) = WD_ST_INACTIVE_DEBOUNCE
   \/ db_state (detect_in iface) = WD_ST_ACTIVE_DEBOUNCE ->
   interface_get_hotplug_state iface = HOTPLUG_ST_UNKNOWN)
  /\ (db_state (detect_in iface) = WD_ST_INACTIVE_STABLE ->
      interface_get_hotplug_state iface = HOTPLUG_ST_UNPLUGGED)
  /\ (db_state (detect_in iface) = WD_ST_ACTIVE_STABLE ->
      interface_get_hotplug_state iface = HOTPLUG_ST_PLUGGED)
  /\ (forall other : interface,
        db_state (detect_in other) = db_state (detect_in iface) ->
        interface_get_hotplug_state other = interface_get_hotplug_state iface).
Proof.
  unfold interface_get_hotplug_state. repeat split.
  - intros [H|[H|H]]; now rewrite H.
  - intros H; now rewrite H.
  - intros H; now rewrite H.
  - intros other H; now rewrite H.
Qed.

(** ** The voltage regulator group *)

Section VregGroupProperties.

Import VregGroup.

Variable completes : vreg_data -> bool.

Lemma final_cons o ops g :
  final completes (o :: ops) g
  = final completes ops (snd (fst (apply completes o g))).
Proof.
  unfold final. simpl. destruct (apply completes o g) as [[st g1] evs1].
  simpl. now destruct (run completes ops g1) as [[sts g2] evs2].
Qed.

Lemma statuses_cons o ops g :
  statuses completes (o :: ops) g
  = fst (fst (apply completes o g))
    :: statuses completes ops (snd (fst (apply completes o g))).
Proof.
  unfold statuses. simpl. destruct (apply completes o g) as [[st g1] evs1].
  simpl. now destruct (run completes ops g1) as [[sts g2] evs2].
Qed.

Lemma calls_of_cons o o' ops :
  calls_of o (o' :: ops)
  = (if decide (o' = o) then 1 else 0) + calls_of o ops.
Proof.
  unfold calls_of. rewrite filter_cons. destruct (decide (o' = o)); simpl length; lia.
Qed.

(** One call: the count stays non-negative and [power_enabled] stays in
    step with it. *)
Lemma apply_step o g :
  0 <= use_count g ->
  power_enabled g = Z.ltb 0 (use_count g) ->
  let g' := snd (fst (apply completes o g)) in
  0 <= use_count g' /\ power_enabled g' = Z.ltb 0 (use_count g').
Proof.
  intros Hpos Hinv. destruct o; simpl.
  - unfold enable. destruct (Z.eqb_spec (use_count g + 1) 1) as [E|E].
    + destruct (drive_active completes (rails g)) as [ok evs]; simpl.
      split; [lia|]. symmetry. apply Z.ltb_lt. lia.
    + simpl. split; [lia|]. rewrite Hinv.
      destruct (Z.ltb_spec 0 (use_count g)), (Z.ltb_spec 0 (use_count g + 1));
        try reflexivity; lia.
  - unfold disable. destruct (Z.ltb_spec 0 (use_count g)) as [L|L].
    + destruct (Z.eqb_spec (use_count g - 1) 0) as [E|E]; simpl.
      * split; [lia|]. symmetry. apply Z.ltb_ge. lia.
      * split; [lia|]. rewrite Hinv.
        destruct (Z.ltb_spec 0 (use_count g)), (Z.ltb_spec 0 (use_count g - 1));
          try reflexivity; lia.
    + simpl. split; [lia|]. rewrite Hinv. symmetry. apply Z.ltb_ge. exact L.
Qed.

(** What one call does to the count: [enable] adds one; [disable] takes
    one off a positive count and leaves a count of 0 alone. *)
Lemma apply_count o g :
  use_count (snd (fst (apply completes o g)))
  = match o with
    | Enable => use_count g + 1
    | Disable => if Z.ltb 0 (use_count g) then use_count g - 1 else use_count g
    end.
Proof.
  destruct o; simpl.
  - unfold enable. destruct (Z.eqb (use_count g + 1) 1); [|reflexivity].
    now destruct (drive_active completes (rails g)).
  - unfold disable. destruct (Z.ltb 0 (use_count g)); [|reflexivity].
    now destruct (Z.eqb (use_count g - 1) 0).
Qed.

Lemma run_invariant ops : forall g,
  0 <= use_count g ->
  power_enabled g = Z.ltb 0 (use_count g) ->
  0 <= use_count (final completes ops g)
  /\ power_enabled (final completes ops g)
     = Z.ltb 0 (use_count (final completes ops g)).
Proof.
  induction ops as [|o ops IH]; intros g Hpos Hinv.
  - unfold final. simpl. auto.
  - rewrite final_cons. destruct (apply_step o g Hpos Hinv) as [Hpos1 Hinv1].
    now apply IH.
Qed.

(** As long as no [disable] meets a count of 0, every call moves the
    count by one. *)
Lemma run_counts ops : forall g,
  0 <= use_count g ->
  (forall k, calls_of Disable (take k ops)
             <= use_count g + calls_of Enable (take k ops)) ->
  use_count (final completes ops g)
  = use_count g + calls_of Enable ops - calls_of Disable ops.
Proof.
  induction ops as [|o ops IH]; intros g Hpos Hbal.
  - unfold final, calls_of. simpl. lia.
  - rewrite final_cons, !calls_of_cons.
    pose proof (apply_count o g) as Hcount.
    pose proof (Hbal 1%nat) as H1. simpl take in H1. rewrite take_0 in H1.
    rewrite !calls_of_cons in H1. unfold calls_of in H1. simpl in H1.
    rewrite IH.
    + rewrite Hcount. destruct o; simpl.
      * lia.
      * simpl in H1. destruct (Z.ltb_spec 0 (use_count g)); lia.
    + rewrite Hcount. destruct o; [lia|].
      destruct (Z.ltb_spec 0 (use_count g)); lia.
    + intros k. specialize (Hbal (S k)). simpl take in Hbal.
      rewrite !calls_of_cons in Hbal. rewrite Hcount.
      destruct o; simpl in *.
      * lia.
      * destruct (Z.ltb_spec 0 (use_count g)); lia.
Qed.

(** The status of one call: only a [disable] at a count of 0 reports a
    misuse. *)
Lemma apply_status o g :
  0 <= use_count g ->
  (if decide (fst (fst (apply completes o g)) = MisuseError) then 1 else 0)
  = match o with
    | Enable => 0
    | Disable => if Z.ltb 0 (use_count g) then 0 else 1
    end.
Proof.
  intros Hpos. destruct o; simpl.
  - unfold enable. destruct (Z.eqb (use_count g + 1) 1); [|reflexivity].
    now destruct (drive_active completes (rails g)) as [[|] evs].
  - unfold disable. destruct (Z.ltb 0 (use_count g)); [|reflexivity].
    now destruct (Z.eqb (use_count g - 1) 0).
Qed.

Lemma misuses_cons o ops g :
  misuses completes (o :: ops) g
  = (if decide (fst (fst (apply completes o g)) = MisuseError) then 1 else 0)
    + misuses completes ops (snd (fst (apply completes o g))).
Proof.
  unfold misuses. rewrite statuses_cons, filter_cons.
  destruct (decide (fst (fst (apply completes o g)) = MisuseError));
    simpl length; lia.
Qed.

(** Every call moves the count by one, except a [disable] that meets a
    count of 0. *)
Lemma run_counts_misuses ops : forall g,
  0 <= use_count g ->
  use_count (final completes ops g)
  = use_count g + calls_of Enable ops - calls_of Disable ops
    + misuses completes ops g.
Proof.
  induction ops as [|o ops IH]; intros g Hpos.
  - unfold final, calls_of, misuses. simpl. lia.
  - rewrite final_cons, misuses_cons, !calls_of_cons, (apply_status o g Hpos).
    pose proof (apply_count o g) as Hcount.
    rewrite IH.
    + rewrite Hcount. destruct o; simpl.
      * lia.
      * destruct (Z.ltb_spec 0 (use_count g)); lia.
    + rewrite Hcount. destruct o; [lia|].
      destruct (Z.ltb_spec 0 (use_count g)); lia.
Qed.

Lemma disable_at_zero g :
  use_count g = 0 -> disable g = (MisuseError, g, []).
Proof. intros H. unfold disable. now rewrite H. Qed.

(** C2, amended. From a fresh group and after any interleaving of
    [enable] and [disable] calls, [use_count] is not negative,
    [power_enabled] is [use_count > 0], and a [disable] call at
    [use_count] 0 reports a misuse and leaves the group as it is.
    [use_count] is the number of [enable] calls minus the number of
    [disable] calls, plus the number of [disable] calls that were issued
    at [use_count] 0 (those that reported a misuse).  So when no
    [disable] of the interleaving is issued at [use_count] 0 (up to any
    point there are at least as many [enable] calls as [disable]
    calls), [use_count] is the number of [enable] calls minus the number
    of [disable] calls. *)
Theorem use_count_is_enables_minus_disables (ops : list op) (g : vreg) :
  fresh g ->
  0 <= use_count (final completes ops g)
  /\ power_enabled (final completes ops g)
     = Z.ltb 0 (use_count (final completes ops g))
  /\ (use_count (final completes ops g) = 0 ->
      disable (final completes ops g)
      = (MisuseError, final completes ops g, []))
  /\ use_count (final completes ops g)
     = calls_of Enable ops - calls_of Disable ops + misuses completes ops g
  /\ (never_below_zero ops ->
      use_count (final completes ops g)
      = calls_of Enable ops - calls_of Disable ops).
Proof.
  intros [Hcount Hen].
  destruct (run_invariant ops g) as [Hpos Hinv];
    [lia | now rewrite Hen, Hcount |].
  split; [exact Hpos|]. split; [exact Hinv|].
  split; [apply disable_at_zero|].
  split; [rewrite run_counts_misuses; lia|].
  intros Hbal. rewrite run_counts; [lia | lia |].
  intros k. specialize (Hbal k). lia.
Qed.

End VregGroupProperties.

(** ** The command on the small board *)

Section OnTheBoard.

Import Demo.

Example strtol_two : strtol "2" = 2.
Proof. reflexivity. Qed.

Example strtol_minus_one : strtol "-1" = -1.
Proof. reflexivity. Qed.

Example strtol_word : strtol "on" = 0.
Proof. reflexivity. Qed.

Example strtol_clamps : strtol "99999999999" = LONG_MAX.
Proof. reflexivity. Qed.

(** Power on "all" stops at the interface without rails: the third
    interface is not visited. *)
Example power_all_stops_at_apb1 :
  exists w',
    cmd_set_power ["power"; "p"; "all"; "1"] builtin_second = Return (-5) w'
    /\ invoked w' = [Invoked 0 1 0; Invoked 1 1 (-5)]
    /\ calls w' = [CallPowerOn 0; CallPowerOn 1].
Proof. vm_compute. eexists. split; [reflexivity|]. split; reflexivity. Qed.

(** With an empty table, "all" returns a variable that was never
    assigned. *)
Example all_on_an_empty_table :
  cmd_dumpstate ["power"; "d"; "all"] (initial_world [] 0%nat) = Undefined.
Proof. reflexivity. Qed.

(** The scenario of the regulator group: two enables and two disables. *)
Example vreg_scenario :
  VregGroup.run (fun _ => true)
    [VregGroup.Enable; VregGroup.Enable; VregGroup.Disable; VregGroup.Disable]
    (group "A" (Some [rail 20; rail 21]))
  = ([VregGroup.Success; VregGroup.Success; VregGroup.Success; VregGroup.Success],
     group "A" (Some [rail 20; rail 21]),
     [VregGroup.Drive 20 true; VregGroup.Hold 100;
      VregGroup.Drive 21 true; VregGroup.Hold 100;
      VregGroup.Drive 21 false; VregGroup.Drive 20 false]).
Proof. reflexivity. Qed.

(** [module_2] is the second interface of the table. *)
Lemma module_2_configured : configured_at "module_2" 1 modules_first.
Proof.
  split.
  - eexists. split; reflexivity.
  - intros [|j] s Hj Hlt; [|lia]. injection Hj as <-. discriminate.
Defined.

(** No interface of the board is named "All". *)
Lemma All_not_configured : not_configured "All" modules_first.
Proof. repeat constructor; discriminate. Defined.

(** Powering "all" on the board with the built-in interface second. *)
Lemma do_to_iface_all_short_circuits_witness :
  verb_func set_power_func
  /\ interfaces builtin_second <> []
  /\ exists rcs rc w',
       do_to_iface "all" set_power_func 1 builtin_second = Return rc w'
       /\ calls_in_turn set_power_func 1 0 builtin_second (rcs ++ [rc]) w'
       /\ invoked w' = invoked builtin_second ++ invocations 1 (rcs ++ [rc])
       /\ Forall (fun r => r = 0) rcs
       /\ (length rcs < length (interfaces builtin_second))%nat
       /\ (rc = 0 -> S (length rcs) = length (interfaces builtin_second)).
Proof.
  split; [left; reflexivity|]. split; [discriminate|].
  apply (do_to_iface_all_short_circuits "all" set_power_func 1 builtin_second).
  - left. reflexivity.
  - left. reflexivity.
  - discriminate.
Defined.

(** C2 as stated fails: a [disable] at [use_count] 0 followed by an
    [enable] is one call of each, and leaves [use_count] at 1. *)
Lemma use_count_after_disable_enable :
  let ops := [VregGroup.Disable; VregGroup.Enable] in
  let g := group "A" (Some [rail 20; rail 21]) in
  VregGroup.fresh g
  /\ VregGroup.calls_of VregGroup.Enable ops
     >= VregGroup.calls_of VregGroup.Disable ops
  /\ use_count (VregGroup.final (fun _ => true) ops g) = 1
  /\ use_count (VregGroup.final (fun _ => true) ops g)
     <> VregGroup.calls_of VregGroup.Enable ops
        - VregGroup.calls_of VregGroup.Disable ops.
Proof.
  repeat split; vm_compute; congruence.
Qed.

(** Two enables and one disable on a fresh group. *)
Lemma use_count_is_enables_minus_disables_witness :
  let ops := [VregGroup.Enable; VregGroup.Enable; VregGroup.Disable] in
  let g := group "A" (Some [rail 20; rail 21]) in
  VregGroup.fresh g
  /\ VregGroup.never_below_zero ops
  /\ use_count (VregGroup.final (fun _ => true) ops g) = 2 - 1
  /\ power_enabled (VregGroup.final (fun _ => true) ops g)
     = Z.ltb 0 (use_count (VregGroup.final (fun _ => true) ops g)).
Proof.
  assert (Hfresh : VregGroup.fresh (group "A" (Some [rail 20; rail 21])))
    by (split; reflexivity).
  assert (Hbal : VregGroup.never_below_zero
                   [VregGroup.Enable; VregGroup.Enable; VregGroup.Disable]).
  { intros [|[|[|k]]]; simpl take; try (vm_compute; discriminate).
    rewrite take_nil. vm_compute. discriminate. }
  split; [exact Hfresh|]. split; [exact Hbal|].
  destruct (use_count_is_enables_minus_disables (fun _ => true)
              [VregGroup.Enable; VregGroup.Enable; VregGroup.Disable]
              (group "A" (Some [rail 20; rail 21])) Hfresh)
    as (_ & Hinv & _ & _ & H).
  split; [apply H; exact Hbal | exact Hinv].
Defined.

(** [module_1] is stable and active: it is plugged. *)
Lemma hotplug_state_follows_debounce_state_witness :
  db_state (detect_in module_1) = WD_ST_ACTIVE_STABLE
  /\ interface_get_hotplug_state module_1 = HOTPLUG_ST_PLUGGED.
Proof.
  split; [reflexivity|].
  destruct (hotplug_state_follows_debounce_state module_1) as (_ & _ & H & _).
  apply H. reflexivity.
Defined.

(** The power verb on "All". *)
Lemma unknown_interface_is_rejected_witness :
  not_configured "All" modules_first
  /\ rejected (cmd_set_power ["power"; "p"; "All"; "1"] modules_first)
              modules_first.
Proof.
  split; [exact All_not_configured|].
  destruct (unknown_interface_is_rejected "All" modules_first)
    as (_ & _ & H & _);
    [discriminate | discriminate | exact All_not_configured |].
  exact (H "power" "p" "1").
Defined.

(** Powering the first interface on. *)
Lemma set_power_calls_the_primitive_once_witness :
  interfaces modules_first !! 0%nat = Some module_1
  /\ exists w',
       set_power_func 0 1 modules_first
       = Return (fst (power_on module_1 (board modules_first))) w'
       /\ calls w' = calls modules_first ++ [CallPowerOn 0].
Proof.
  split; [reflexivity|].
  destruct (set_power_calls_the_primitive_once modules_first) as (H & _).
  destruct (H 0%nat module_1 1 eq_refl) as (Hon & _).
  apply Hon. discriminate.
Defined.



(** A pulse on [module_2] without a length: the default, -1. *)
Lemma wakeout_uses_the_default_length_witness :
  configured_at "module_2" 1 modules_first
  /\ exists w',
       cmd_wakeout ["power"; "w"; "module_2"] modules_first
       = Return (fst (generate_wakeout module_2 false (-1) (board modules_first)))
                w'
       /\ calls w' = calls modules_first ++ [CallWakeout 1 false (-1)].
Proof.
  split; [exact module_2_configured|].
  destruct (wakeout_uses_the_default_length modules_first) as (_ & H & _).
  apply (H "power" "w" "module_2" 1%nat module_2);
    [discriminate | discriminate | exact module_2_configured | reflexivity].
Defined.

(** Dumping "all" on the board. *)
Lemma dumpstate_is_read_only_witness :
  interfaces modules_first <> []
  /\ exists w',
       cmd_dumpstate ["power"; "d"; "all"] modules_first = Return 0 w'
       /\ same_state modules_first w'
       /\ invoked w'
          = invoked modules_first
            ++ invocations 0 (replicate (length (interfaces modules_first)) 0).
Proof.
  split; [discriminate|].
  destruct (dumpstate_is_read_only modules_first) as (_ & _ & H).
  apply (H "power" "d" "all"); [left; reflexivity | discriminate].
Defined.

(** "All" is looked up as a name, and not found. *)
Lemma only_all_and_ALL_select_all_witness :
  (not_configured "All" modules_first
   /\ rejected (do_to_iface "All" dumpstate_func 0 modules_first)
               modules_first)
  /\ (configured_at "module_2" 1 modules_first
      /\ exists rc w1,
           dumpstate_func 1 0 modules_first = Return rc w1
           /\ do_to_iface "module_2" dumpstate_func 0 modules_first
              = Return rc (add_invoked (Invoked 1 0 rc) w1)
           /\ invoked (add_invoked (Invoked 1 0 rc) w1)
              = invoked modules_first ++ [Invoked 1 0 rc]).
Proof.
  split.
  - split; [exact All_not_configured|].
    destruct (only_all_and_ALL_select_all "All" dumpstate_func 0 modules_first)
      as (H & _).
    destruct H as (_ & H); [discriminate | discriminate |].
    apply H. exact All_not_configured.
  - split; [exact module_2_configured|].
    destruct (only_all_and_ALL_select_all
                "module_2" dumpstate_func 0 modules_first) as (H & _).
    destruct H as (H & _); [discriminate | discriminate |].
    exact (H 1%nat module_2_configured dumpstate_func_well_behaved).
Defined.

(** The argument "on" is not a number: it powers [module_2] off. *)
Lemma set_power_accepts_any_argument_witness :
  configured_at "module_2" 1 modules_first
  /\ strtol "on" = 0
  /\ exists w',
       cmd_set_power ["power"; "p"; "module_2"; "on"] modules_first
       = Return (fst (power_off module_2 (board modules_first))) w'
       /\ calls w' = calls modules_first ++ [CallPowerOff 1].
Proof.
  split; [exact module_2_configured|]. split; [reflexivity|].
  destruct (set_power_accepts_any_argument "on" modules_first) as (_ & H & _).
  destruct (H "power" "p" "module_2" 1%nat module_2) as (_ & Hoff);
    [discriminate | discriminate | exact module_2_configured | reflexivity |].
  apply Hoff. reflexivity.
Defined.

End OnTheBoard.

(** ** More of the command: the command line, the listings, the verbs
    in sequence *)

Section CommandLine.

Context `{C : Core}.

Lemma bind_Exited {A B} (m : M A) (k : A -> M B) w st w' :
  m w = Exited st w' -> bind m k w = Exited st w'.
Proof. intros H. unfold bind. now rewrite H. Qed.

Lemma bind_Undefined {A B} (m : M A) (k : A -> M B) w :
  m w = Undefined -> bind m k w = Undefined.
Proof. intros H. unfold bind. now rewrite H. Qed.

Ltac run_step :=
  first
    [ rewrite bind_assoc
    | rewrite bind_ret
    | rewrite (bind_Return _ _ _ _ _ (printf_prints _ _ _))
    | rewrite (bind_Return _ _ _ _ _ (get_run _ _))
    | rewrite (bind_Return _ _ _ _ _ (print_interface_usage_prints _))
    | rewrite printf_prints ].

(** *** The usage functions *)

Lemma usage_exits {A} st w :
  @usage C A st w
  = Exited st (add_stdouts (Printf "%s: usage:\n" [ArgS PROGNAME]
                            :: map usage_line all_cmds) w).
Proof.
  unfold usage, all_cmds. cbn [for_each]. repeat run_step.
  unfold exit. rewrite !add_stdouts_app. reflexivity.
Qed.

Lemma set_power_usage_exits {A} st w :
  exists out, @set_power_usage C A st w = Exited st (add_stdouts out w).
Proof.
  unfold set_power_usage. repeat run_step. unfold exit.
  rewrite !add_stdouts_app. eauto.
Qed.

Lemma wakeout_usage_exits {A} st w :
  exists out, @wakeout_usage C A st w = Exited st (add_stdouts out w).
Proof.
  unfold wakeout_usage. repeat run_step. unfold exit.
  rewrite !add_stdouts_app. eauto.
Qed.

Lemma wakeout_length_usage_exits {A} st w :
  exists out, @wakeout_length_usage C A st w = Exited st (add_stdouts out w).
Proof.
  unfold wakeout_length_usage. repeat run_step. unfold exit.
  rewrite !add_stdouts_app. eauto.
Qed.

Lemma dumpstate_usage_exits {A} st w :
  exists out, @dumpstate_usage C A st w = Exited st (add_stdouts out w).
Proof.
  unfold dumpstate_usage. repeat run_step. unfold exit.
  rewrite !add_stdouts_app. eauto.
Qed.

(** *** The verbs with a wrong number of arguments *)

Lemma cmd_set_power_arity argv w :
  length argv <> 4%nat ->
  exists out, cmd_set_power argv w = Exited EXIT_FAILURE (add_stdouts out w).
Proof.
  intros Hn. unfold cmd_set_power. apply Nat.eqb_neq in Hn. rewrite Hn.
  destruct (set_power_usage_exits (A:=unit) EXIT_FAILURE w) as [out Hout].
  exists out. now apply bind_Exited.
Qed.

Lemma cmd_wakeout_arity argv w :
  length argv <> 3%nat -> length argv <> 4%nat ->
  exists out, cmd_wakeout argv w = Exited EXIT_FAILURE (add_stdouts out w).
Proof.
  intros H3 H4. unfold cmd_wakeout.
  rewrite (bind_Return _ _ _ _ _ (get_run _ _)).
  apply Nat.eqb_neq in H3, H4. rewrite H3, H4.
  destruct (wakeout_usage_exits (A:=unit) EXIT_FAILURE w) as [out Hout].
  exists out. now apply bind_Exited.
Qed.

Lemma cmd_wakeout_length_arity argv w :
  length argv <> 2%nat -> length argv <> 3%nat ->
  exists out,
    cmd_wakeout_length argv w = Exited EXIT_FAILURE (add_stdouts out w).
Proof.
  intros H2 H3. unfold cmd_wakeout_length.
  apply Nat.eqb_neq in H2, H3. rewrite H2, H3.
  destruct (wakeout_length_usage_exits (A:=unit) EXIT_FAILURE w) as [out Hout].
  exists out. now apply bind_Exited.
Qed.

Lemma cmd_dumpstate_arity argv w :
  length argv <> 3%nat ->
  exists out, cmd_dumpstate argv w = Exited EXIT_FAILURE (add_stdouts out w).
Proof.
  intros Hn. unfold cmd_dumpstate. apply Nat.eqb_neq in Hn. rewrite Hn.
  destruct (dumpstate_usage_exits (A:=unit) EXIT_FAILURE w) as [out Hout].
  exists out. now apply bind_Exited.
Qed.

(** *** What the usage functions print *)

Lemma set_power_usage_prints {A} st w :
  @set_power_usage C A st w
  = Exited st (add_stdouts (set_power_usage_heading
                            ++ interface_usage_lines (interfaces w)) w).
Proof.
  unfold set_power_usage. repeat run_step. unfold exit.
  rewrite !add_stdouts_app. reflexivity.
Qed.

Lemma wakeout_usage_prints {A} st w :
  @wakeout_usage C A st w
  = Exited st (add_stdouts (wakeout_usage_heading
                            ++ interface_usage_lines (interfaces w)) w).
Proof.
  unfold wakeout_usage. repeat run_step. unfold exit.
  rewrite !add_stdouts_app. reflexivity.
Qed.

Lemma wakeout_length_usage_prints {A} st w :
  @wakeout_length_usage C A st w
  = Exited st (add_stdouts wakeout_length_usage_lines w).
Proof.
  unfold wakeout_length_usage. repeat run_step. unfold exit.
  rewrite !add_stdouts_app. reflexivity.
Qed.

Lemma dumpstate_usage_prints {A} st w :
  @dumpstate_usage C A st w
  = Exited st (add_stdouts (dumpstate_usage_heading
                            ++ interface_usage_lines (interfaces w)) w).
Proof.
  unfold dumpstate_usage. repeat run_step. unfold exit.
  rewrite !add_stdouts_app. reflexivity.
Qed.

Lemma cmd_set_power_arity_prints argv w :
  length argv <> 4%nat ->
  cmd_set_power argv w
  = Exited EXIT_FAILURE
      (add_stdouts (set_power_usage_heading
                    ++ interface_usage_lines (interfaces w)) w).
Proof.
  intros Hn. unfold cmd_set_power. apply Nat.eqb_neq in Hn. rewrite Hn.
  apply bind_Exited. apply (set_power_usage_prints (A:=unit)).
Qed.

Lemma cmd_wakeout_arity_prints argv w :
  length argv <> 3%nat -> length argv <> 4%nat ->
  cmd_wakeout argv w
  = Exited EXIT_FAILURE
      (add_stdouts (wakeout_usage_heading
                    ++ interface_usage_lines (interfaces w)) w).
Proof.
  intros H3 H4. unfold cmd_wakeout.
  rewrite (bind_Return _ _ _ _ _ (get_run _ _)).
  apply Nat.eqb_neq in H3, H4. rewrite H3, H4.
  apply bind_Exited. apply (wakeout_usage_prints (A:=unit)).
Qed.

Lemma cmd_wakeout_length_arity_prints argv w :
  length argv <> 2%nat -> length argv <> 3%nat ->
  cmd_wakeout_length argv w
  = Exited EXIT_FAILURE (add_stdouts wakeout_length_usage_lines w).
Proof.
  intros H2 H3. unfold cmd_wakeout_length.
  apply Nat.eqb_neq in H2, H3. rewrite H2, H3.
  apply bind_Exited. apply (wakeout_length_usage_prints (A:=unit)).
Qed.

Lemma cmd_dumpstate_arity_prints argv w :
  length argv <> 3%nat ->
  cmd_dumpstate argv w
  = Exited EXIT_FAILURE
      (add_stdouts (dumpstate_usage_heading
                    ++ interface_usage_lines (interfaces w)) w).
Proof.
  intros Hn. unfold cmd_dumpstate. apply Nat.eqb_neq in Hn. rewrite Hn.
  apply bind_Exited. apply (dumpstate_usage_prints (A:=unit)).
Qed.

Lemma cmd_wakeout_length_get p v w :
  cmd_wakeout_length [p; v] w
  = Return 0 (add_stdouts
                [wakeout_length_line p v (wakeout_length_default w)] w).
Proof. reflexivity. Qed.

Lemma cmd_wakeout_length_set p v a w :
  cmd_wakeout_length [p; v; a] w
  = Return 0 (add_stdouts [wakeout_length_line p v (strtol a)]
                (set_wakeout_length_default (strtol a) w)).
Proof.
  unfold cmd_wakeout_length. simpl. unfold bind, modify, ret, get, printf.
  simpl. now rewrite to_int_strtol.
Qed.

(** *** Dispatch *)

Lemma selects_spec s c :
  streq s (longc c) || streq s (String (shortc c) EmptyString) = true
  <-> selects s c.
Proof. unfold selects. rewrite orb_true_iff, !streq_eq. tauto. Qed.

Lemma dispatch_cases cmds s argv w :
  (exists c, c ∈ cmds /\ selects s c
             /\ dispatch cmds s argv w = command_func c argv w)
  \/ ((forall c, c ∈ cmds -> ~ selects s c)
      /\ dispatch cmds s argv w = usage EXIT_FAILURE w).
Proof.
  induction cmds as [|c cmds IH]; simpl.
  - right. split; [|reflexivity]. intros c Hc. now apply elem_of_nil in Hc.
  - destruct (streq s (longc c) || streq s (String (shortc c) EmptyString))
      eqn:E.
    + left. exists c. apply selects_spec in E.
      split; [apply elem_of_cons; auto|]. split; [exact E|reflexivity].
    + destruct IH as [(c' & Hin & Hsel & Hrun)|[Hnone Hrun]].
      * left. exists c'. split; [apply elem_of_cons; auto|]. auto.
      * right. split; [|exact Hrun]. intros c' [->|Hin]%elem_of_cons.
        -- intros Hsel%selects_spec. congruence.
        -- now apply Hnone.
Qed.

Lemma all_cmds_complete c : c ∈ all_cmds.
Proof. unfold all_cmds. destruct c; rewrite !elem_of_cons; tauto. Qed.

Lemma selects_unique s c c' : selects s c -> selects s c' -> c = c'.
Proof.
  unfold selects. intros [->| ->] [H|H]; destruct c, c'; try reflexivity;
    discriminate.
Qed.

Lemma power_main_some p s rest w :
  power_main (p :: s :: rest) w = dispatch all_cmds s (p :: s :: rest) w.
Proof. reflexivity. Qed.

Lemma power_main_short argv w :
  (length argv < 2)%nat -> power_main argv w = usage EXIT_FAILURE w.
Proof.
  intros Hlen. destruct argv as [|p [|s rest]]; simpl in Hlen; try lia.
  - rewrite (usage_exits (A:=Z)). unfold power_main.
    cbn [length Nat.ltb Nat.leb]. apply bind_Exited, usage_exits.
  - rewrite (usage_exits (A:=Z)). unfold power_main.
    cbn [length Nat.ltb Nat.leb]. apply bind_Exited, usage_exits.
Qed.

(** *** What [do_to_iface] can end in *)

Lemma do_to_iface_empty iface_name (f : iface_ptr -> Z -> M Z) context w :
  iface_name = "all" \/ iface_name = "ALL" ->
  interfaces w = [] ->
  do_to_iface iface_name f context w = Undefined.
Proof.
  intros Hall%selects_all Hempty. unfold do_to_iface. rewrite Hall.
  unfold bind, interface_foreach. rewrite Hempty. reflexivity.
Qed.

Lemma do_to_iface_outcome iface_name f context w :
  well_behaved f ->
  (exists rc w', do_to_iface iface_name f context w = Return rc w')
  \/ (do_to_iface iface_name f context w = Undefined
      /\ interfaces w = []
      /\ (iface_name = "all" \/ iface_name = "ALL")).
Proof.
  intros Hf.
  destruct (streq iface_name "all" || streq iface_name "ALL") eqn:Hall.
  - apply selects_all in Hall.
    destruct (interfaces w) as [|s0 table] eqn:Htable.
    + right. split; [now apply do_to_iface_empty|]. auto.
    + left.
      destruct (do_to_iface_all (fun _ => True) iface_name f context w)
        as (rcs & rc & w' & Hrun & _); auto.
      { now rewrite Htable. }
      eauto.
  - left. unfold do_to_iface. rewrite Hall. unfold interface_get_by_name.
    rewrite (bind_Return _ _ _ _ _ (get_run _ _)).
    destruct (list_find (fun s => name s = iface_name) (interfaces w))
      as [[iface s]|] eqn:Hfind; simpl.
    + apply list_find_Some in Hfind as (Hs & _ & _).
      apply lookup_lt_Some in Hs.
      destruct (invoke_well_behaved f iface context w Hf Hs)
        as (rc & w' & Hrun & _). eauto.
    + rewrite (bind_Return _ _ _ _ _ (printf_prints _ _ _)).
      rewrite (bind_Return _ _ _ _ _ (print_interface_usage_prints _)).
      unfold ret. eauto.
Qed.

Lemma dumpstate_keeps_state iface_name context w rc w' :
  do_to_iface iface_name dumpstate_func context w = Return rc w' ->
  same_state w w'.
Proof.
  intros Hrun.
  apply (do_to_iface_keeps
           (fun w1 => same_state w w1
                      /\ exists l, invoked w1 = invoked w ++ l
                                   /\ Forall (fun i => inv_rc i = 0) l))
    in Hrun; [tauto|..].
  - apply dumpstate_func_well_behaved.
  - intros. eapply invoke_dumpstate_keeps; eassumption.
  - intros out w1 H. exact H.
  - split; [apply same_state_refl|]. exists []. now rewrite app_nil_r.
Qed.

(** *** Every command line *)

(** What [main] does with its arguments: it prints a usage and exits,
    with success only for the help verb; or it runs one of the verbs on
    arguments of the right number. *)
Lemma power_main_cases argv w :
  (exists st out,
      power_main argv w = Exited st (add_stdouts out w)
      /\ (st = EXIT_FAILURE
          \/ (st = EXIT_SUCCESS
              /\ exists s, argv !! 1%nat = Some s /\ selects s HELP)))
  \/ (exists p v n a,
         argv = [p; v; n; a] /\ selects v SET_POWER
         /\ power_main argv w = do_to_iface n set_power_func (strtol a) w)
  \/ (exists p v n,
         argv = [p; v; n] /\ selects v WAKEOUT
         /\ power_main argv w
            = do_to_iface n wakeout_func (wakeout_length_default w) w)
  \/ (exists p v n a,
         argv = [p; v; n; a] /\ selects v WAKEOUT
         /\ power_main argv w = do_to_iface n wakeout_func (strtol a) w)
  \/ (exists p v,
         argv = [p; v] /\ selects v WAKEOUT_LENGTH
         /\ power_main argv w
            = Return 0 (add_stdouts
                          [wakeout_length_line p v (wakeout_length_default w)]
                          w))
  \/ (exists p v a,
         argv = [p; v; a] /\ selects v WAKEOUT_LENGTH
         /\ power_main argv w
            = Return 0 (add_stdouts [wakeout_length_line p v (strtol a)]
                          (set_wakeout_length_default (strtol a) w)))
  \/ (exists p v n,
         argv = [p; v; n] /\ selects v DUMPSTATE
         /\ power_main argv w = do_to_iface n dumpstate_func 0 w).
Proof.
  destruct argv as [|p [|v rest]].
  - left. rewrite power_main_short, usage_exits by (simpl; lia). eauto.
  - left. rewrite power_main_short, usage_exits by (simpl; lia). eauto.
  - rewrite power_main_some.
    destruct (dispatch_cases all_cmds v (p :: v :: rest) w)
      as [(c & _ & Hsel & Hrun)|[_ Hrun]]; rewrite Hrun; clear Hrun.
    2:{ left. rewrite usage_exits. eauto. }
    destruct c; simpl command_func.
    + left. unfold cmd_usage. rewrite usage_exits.
      do 2 eexists. split; [reflexivity|]. right. split; [reflexivity|].
      exists v. auto.
    + destruct rest as [|n [|a [|b rest]]].
      * left. destruct (cmd_set_power_arity [p; v] w) as [out ->];
          [discriminate|eauto].
      * left. destruct (cmd_set_power_arity [p; v; n] w) as [out ->];
          [discriminate|eauto].
      * right; left. exists p, v, n, a.
        rewrite cmd_set_power_args, to_int_strtol. auto.
      * left. destruct (cmd_set_power_arity (p :: v :: n :: a :: b :: rest) w)
          as [out ->]; [discriminate|eauto].
    + destruct rest as [|n [|a [|b rest]]].
      * left. destruct (cmd_wakeout_arity [p; v] w) as [out ->];
          [discriminate|discriminate|eauto].
      * right; right; left. exists p, v, n.
        rewrite cmd_wakeout_default. auto.
      * right; right; right; left. exists p, v, n, a.
        rewrite cmd_wakeout_args, to_int_strtol. auto.
      * left. destruct (cmd_wakeout_arity (p :: v :: n :: a :: b :: rest) w)
          as [out ->]; [discriminate|discriminate|eauto].
    + destruct rest as [|a [|b rest]].
      * do 4 right; left. exists p, v. rewrite cmd_wakeout_length_get. auto.
      * do 5 right; left. exists p, v, a. rewrite cmd_wakeout_length_set. auto.
      * left. destruct (cmd_wakeout_length_arity (p :: v :: a :: b :: rest) w)
          as [out ->]; [discriminate|discriminate|eauto].
    + destruct rest as [|n [|a rest]].
      * left. destruct (cmd_dumpstate_arity [p; v] w) as [out ->];
          [discriminate|eauto].
      * do 6 right. exists p, v, n. rewrite cmd_dumpstate_args. auto.
      * left. destruct (cmd_dumpstate_arity (p :: v :: n :: a :: rest) w)
          as [out ->]; [discriminate|eauto].
Qed.

Lemma exited_state {A} (o : outcome A) st out w w' :
  o = Exited st (add_stdouts out w) ->
  o = Exited st w' ->
  stdout w' = stdout w ++ out /\ same_state w w' /\ invoked w' = invoked w.
Proof.
  intros -> [= <-]. split; [reflexivity|].
  split; [apply same_state_stdouts|reflexivity].
Qed.

(** X1. [main] runs the verb whose long name or whose letter is
    [argv[1]], on the whole argument vector; a string names at most one
    verb. *)
Theorem verb_is_selected_by_name_or_letter
    (argv : list string) (v : string) (c : cmd) (w : world) :
  argv !! 1%nat = Some v ->
  selects v c ->
  power_main argv w = command_func c argv w
  /\ forall c', selects v c' -> c' = c.
Proof.
  intros Hv Hsel. split; [|intros c' Hc'; eapply selects_unique; eauto].
  destruct argv as [|p [|v' rest]]; try discriminate.
  injection Hv as ->. rewrite power_main_some.
  destruct (dispatch_cases all_cmds v (p :: v :: rest) w)
    as [(c0 & _ & Hsel0 & Hrun)|[Hnone _]].
  - now rewrite Hrun, (selects_unique v c0 c Hsel0 Hsel).
  - destruct (Hnone c (all_cmds_complete c) Hsel).
Qed.

(** X2. Without a verb, or with a string that names no verb, [main]
    prints the usage listing (a heading and one line for each verb, in
    the order of the table) and exits with [EXIT_FAILURE]; with the help
    verb, whatever follows it, it prints the same listing and exits with
    [EXIT_SUCCESS].  Nothing but [stdout] changes. *)
Theorem usage_listing (argv : list string) (w : world) :
  ((length argv < 2)%nat
   \/ (exists v, argv !! 1%nat = Some v /\ forall c, ~ selects v c) ->
   exists w',
     power_main argv w = Exited EXIT_FAILURE w'
     /\ stdout w' = stdout w ++ Printf "%s: usage:\n" [ArgS PROGNAME]
                                :: map usage_line all_cmds
     /\ same_state w w' /\ invoked w' = invoked w)
  /\ ((exists v, argv !! 1%nat = Some v /\ selects v HELP) ->
      exists w',
        power_main argv w = Exited EXIT_SUCCESS w'
        /\ stdout w' = stdout w ++ Printf "%s: usage:\n" [ArgS PROGNAME]
                                   :: map usage_line all_cmds
        /\ same_state w w' /\ invoked w' = invoked w).
Proof.
  split.
  - intros H.
    assert (Hrun : power_main argv w = usage EXIT_FAILURE w).
    { destruct H as [Hlen|(v & Hv & Hnone)]; [now apply power_main_short|].
      destruct argv as [|p [|v' rest]]; try discriminate.
      injection Hv as ->. rewrite power_main_some.
      destruct (dispatch_cases all_cmds v (p :: v :: rest) w)
        as [(c0 & _ & Hsel0 & _)|[_ Hrun]]; [|exact Hrun].
      destruct (Hnone c0 Hsel0). }
    rewrite Hrun, usage_exits. eexists. split; [reflexivity|].
    split; [reflexivity|]. split; [apply same_state_stdouts|reflexivity].
  - intros (v & Hv & Hsel).
    destruct argv as [|p [|v' rest]]; try discriminate.
    injection Hv as ->. rewrite power_main_some.
    destruct (dispatch_cases all_cmds v (p :: v :: rest) w)
      as [(c0 & _ & Hsel0 & Hrun)|[Hnone _]].
    + rewrite Hrun, (selects_unique v c0 HELP Hsel0 Hsel). simpl.
      unfold cmd_usage. rewrite usage_exits. eexists. split; [reflexivity|].
      split; [reflexivity|]. split; [apply same_state_stdouts|reflexivity].
    + destruct (Hnone HELP (all_cmds_complete HELP) Hsel).
Qed.

(** X3. A verb given a wrong number of arguments (power needs 4,
    wakeout 3 or 4, wakeout_length 2 or 3, dumpstate 3) prints its
    usage and exits with [EXIT_FAILURE].  What it appends to the
    standard output is exactly the usage of the verb: the heading lines
    of its usage function followed, for power, wakeout and dumpstate,
    by the list of legal interface values of the board (the "all" line
    and one entry per configured interface, with its switch port); the
    usage of wakeout_length has no such list.  No function is called on
    any interface, no primitive of the core is called, and the default
    wakeout length is as before. *)
Theorem wrong_arity_exits_with_failure (argv : list string) (w : world) :
  (length argv <> 4%nat ->
   exists w', cmd_set_power argv w = Exited EXIT_FAILURE w'
              /\ stdout w' = stdout w ++ set_power_usage_heading
                                     ++ interface_usage_lines (interfaces w)
              /\ same_state w w' /\ invoked w' = invoked w)
  /\ (length argv <> 3%nat -> length argv <> 4%nat ->
      exists w', cmd_wakeout argv w = Exited EXIT_FAILURE w'
                 /\ stdout w' = stdout w ++ wakeout_usage_heading
                                        ++ interface_usage_lines (interfaces w)
                 /\ same_state w w' /\ invoked w' = invoked w)
  /\ (length argv <> 2%nat -> length argv <> 3%nat ->
      exists w', cmd_wakeout_length argv w = Exited EXIT_FAILURE w'
                 /\ stdout w' = stdout w ++ wakeout_length_usage_lines
                 /\ same_state w w' /\ invoked w' = invoked w)
  /\ (length argv <> 3%nat ->
      exists w', cmd_dumpstate argv w = Exited EXIT_FAILURE w'
                 /\ stdout w' = stdout w ++ dumpstate_usage_heading
                                        ++ interface_usage_lines (interfaces w)
                 /\ same_state w w' /\ invoked w' = invoked w).
Proof.
  split; [|split; [|split]]; intros.
  - rewrite cmd_set_power_arity_prints by assumption.
    eexists. split; [reflexivity|]. split; [reflexivity|].
    split; [apply same_state_stdouts|reflexivity].
  - rewrite cmd_wakeout_arity_prints by assumption.
    eexists. split; [reflexivity|]. split; [reflexivity|].
    split; [apply same_state_stdouts|reflexivity].
  - rewrite cmd_wakeout_length_arity_prints by assumption.
    eexists. split; [reflexivity|]. split; [reflexivity|].
    split; [apply same_state_stdouts|reflexivity].
  - rewrite cmd_dumpstate_arity_prints by assumption.
    eexists. split; [reflexivity|]. split; [reflexivity|].
    split; [apply same_state_stdouts|reflexivity].
Qed.

Lemma returns_or_undefined iface_name f context w st w' :
  well_behaved f ->
  do_to_iface iface_name f context w <> Exited st w'.
Proof.
  intros Hf H.
  destruct (do_to_iface_outcome iface_name f context w Hf)
    as [(rc & w1 & Hrun)|(Hrun & _)]; congruence.
Qed.

(** X4. Whenever the command exits, on any command line, it has called
    no function on any interface and no primitive of the core, and the
    interface table, the board and the default wakeout length are as
    before; the status is [EXIT_FAILURE], or [EXIT_SUCCESS] and then the
    verb was help. *)
Theorem exit_leaves_the_board_alone
    (argv : list string) (w : world) (st : Z) (w' : world) :
  power_main argv w = Exited st w' ->
  same_state w w'
  /\ invoked w' = invoked w
  /\ (st = EXIT_FAILURE
      \/ (st = EXIT_SUCCESS
          /\ exists s, argv !! 1%nat = Some s /\ selects s HELP)).
Proof.
  intros Hexit.
  destruct (power_main_cases argv w)
    as [(st0 & out & Hrun & Hst)
       |[(p & v & n & a & _ & _ & Hrun)
        |[(p & v & n & _ & _ & Hrun)
         |[(p & v & n & a & _ & _ & Hrun)
          |[(p & v & _ & _ & Hrun)
           |[(p & v & a & _ & _ & Hrun)
            |(p & v & n & _ & _ & Hrun)]]]]]];
    rewrite Hrun in Hexit; try discriminate.
  - injection Hexit as <- <-.
    split; [apply same_state_stdouts|]. split; [reflexivity|exact Hst].
  - now apply returns_or_undefined in Hexit;
      [|apply set_power_func_well_behaved].
  - now apply returns_or_undefined in Hexit;
      [|apply wakeout_func_well_behaved].
  - now apply returns_or_undefined in Hexit;
      [|apply wakeout_func_well_behaved].
  - now apply returns_or_undefined in Hexit;
      [|apply dumpstate_func_well_behaved].
Qed.

(** X5. The command has a defined behaviour on every command line as
    soon as the interface table is not empty: the one way to an
    undefined result is a verb applied to "all" or "ALL" on an empty
    table. *)
Theorem undefined_only_on_an_empty_table (argv : list string) (w : world) :
  power_main argv w = Undefined ->
  interfaces w = []
  /\ exists n, argv !! 2%nat = Some n /\ (n = "all" \/ n = "ALL").
Proof.
  intros Hundef.
  assert (Hd : forall n f context,
             well_behaved f ->
             do_to_iface n f context w = Undefined ->
             interfaces w = [] /\ (n = "all" \/ n = "ALL")).
  { intros n f context Hf H.
    destruct (do_to_iface_outcome n f context w Hf)
      as [(rc & w1 & Hrun)|(_ & He & Hn)]; [congruence|auto]. }
  destruct (power_main_cases argv w)
    as [(st0 & out & Hrun & Hst)
       |[(p & v & n & a & -> & _ & Hrun)
        |[(p & v & n & -> & _ & Hrun)
         |[(p & v & n & a & -> & _ & Hrun)
          |[(p & v & _ & _ & Hrun)
           |[(p & v & a & _ & _ & Hrun)
            |(p & v & n & -> & _ & Hrun)]]]]]];
    rewrite Hrun in Hundef; try discriminate.
  - destruct (Hd _ _ _ set_power_func_well_behaved Hundef). eauto.
  - destruct (Hd _ _ _ wakeout_func_well_behaved Hundef). eauto.
  - destruct (Hd _ _ _ wakeout_func_well_behaved Hundef). eauto.
  - destruct (Hd _ _ _ dumpstate_func_well_behaved Hundef). eauto.
Qed.

(** X6. On an empty interface table, "all" (or "ALL") makes
    [do_to_iface] return its local [rc] without ever assigning it: no
    function is called, whatever it is, and the result is not defined.
    So it is for the power, wakeout and dumpstate verbs. *)
Theorem all_on_an_empty_table_returns_unassigned_rc
    (selection : string) (w : world) :
  selection = "all" \/ selection = "ALL" ->
  interfaces w = [] ->
  (forall f context, do_to_iface selection f context w = Undefined)
  /\ (forall p v a, cmd_set_power [p; v; selection; a] w = Undefined)
  /\ (forall p v, cmd_wakeout [p; v; selection] w = Undefined)
  /\ (forall p v a, cmd_wakeout [p; v; selection; a] w = Undefined)
  /\ (forall p v, cmd_dumpstate [p; v; selection] w = Undefined).
Proof.
  intros Hall Hempty. repeat split; intros.
  - now apply do_to_iface_empty.
  - rewrite cmd_set_power_args. now apply do_to_iface_empty.
  - rewrite cmd_wakeout_default. now apply do_to_iface_empty.
  - rewrite cmd_wakeout_args. now apply do_to_iface_empty.
  - rewrite cmd_dumpstate_args. now apply do_to_iface_empty.
Qed.

(** X7. When the command returns, the default wakeout length is as
    before unless the verb was wakeout_length with a length argument,
    and then it is the parsed length; and unless the verb was power or
    wakeout, the interface table and the board are as before and no
    primitive of the core has been called. *)
Theorem what_a_command_can_change
    (argv : list string) (w : world) (rc : Z) (w' : world) :
  power_main argv w = Return rc w' ->
  (wakeout_length_default w' = wakeout_length_default w
   \/ exists p v a,
        argv = [p; v; a] /\ selects v WAKEOUT_LENGTH
        /\ wakeout_length_default w' = strtol a)
  /\ ((forall v, argv !! 1%nat = Some v ->
                 ~ selects v SET_POWER /\ ~ selects v WAKEOUT) ->
      interfaces w' = interfaces w
      /\ board w' = board w
      /\ calls w' = calls w).
Proof.
  intros Hret.
  destruct (power_main_cases argv w)
    as [(st0 & out & Hrun & Hst)
       |[(p & v & n & a & -> & Hsel & Hrun)
        |[(p & v & n & -> & Hsel & Hrun)
         |[(p & v & n & a & -> & Hsel & Hrun)
          |[(p & v & -> & Hsel & Hrun)
           |[(p & v & a & -> & Hsel & Hrun)
            |(p & v & n & -> & Hsel & Hrun)]]]]]];
    rewrite Hrun in Hret; try discriminate.
  - apply (do_to_iface_calls_follow
             (fun i => power_call (strtol a) (inv_iface i))) in Hret
      as [_ Hd].
    + split; [auto|]. intros H. destruct (H v eq_refl) as [H1 _]. tauto.
    + apply set_power_func_well_behaved.
    + intros iface w1. eexists. apply set_power_func_call.
    + reflexivity.
  - apply wakeout_calls_follow in Hret as [_ Hd].
    split; [auto|]. intros H. destruct (H v eq_refl) as [_ H1]. tauto.
  - apply wakeout_calls_follow in Hret as [_ Hd].
    split; [auto|]. intros H. destruct (H v eq_refl) as [_ H1]. tauto.
  - injection Hret as _ <-. split; [left; reflexivity|]. auto.
  - injection Hret as _ <-. split; [|auto]. right. exists p, v, a. auto.
  - apply dumpstate_keeps_state in Hret as (Hi & Hb & Hd & Hc).
    split; [auto|]. auto.
Qed.

End CommandLine.

Section Listings.

Context `{C : Core}.

(** *** The verbs in sequence *)

(** X8. The wakeout_length verb with an argument stores the parsed
    length, prints it, and touches nothing else; from then on the
    wakeout_length verb without an argument prints that length, and the
    wakeout verb without a length pulses the interface it names with
    it. *)
Theorem wakeout_length_sets_what_wakeout_uses (p v a : string) (w : world) :
  exists w1,
    cmd_wakeout_length [p; v; a] w = Return 0 w1
    /\ stdout w1 = stdout w ++ [wakeout_length_line p v (strtol a)]
    /\ interfaces w1 = interfaces w
    /\ board w1 = board w
    /\ calls w1 = calls w
    /\ invoked w1 = invoked w
    /\ (forall p' v',
          exists w2,
            cmd_wakeout_length [p'; v'] w1 = Return 0 w2
            /\ stdout w2 = stdout w1 ++ [wakeout_length_line p' v' (strtol a)]
            /\ wakeout_length_default w2 = strtol a)
    /\ (forall p' v' iface_name iface s,
          iface_name <> "all" -> iface_name <> "ALL" ->
          configured_at iface_name iface w ->
          interfaces w !! iface = Some s ->
          exists w2,
            cmd_wakeout [p'; v'; iface_name] w1
            = Return (fst (generate_wakeout s false (strtol a) (board w))) w2
            /\ calls w2 = calls w ++ [CallWakeout iface false (strtol a)]).
Proof.
  eexists. split; [apply cmd_wakeout_length_set|].
  repeat (split; [reflexivity|]). split.
  - intros p' v'. rewrite cmd_wakeout_length_get. eexists.
    split; [reflexivity|]. split; reflexivity.
  - intros p' v' iface_name iface s H1 H2 Hat Hs.
    rewrite cmd_wakeout_default.
    set (w1 := add_stdouts [wakeout_length_line p v (strtol a)]
                 (set_wakeout_length_default (strtol a) w)).
    destruct (do_to_iface_named_call iface_name iface s
                (CallWakeout iface false (strtol a))
                (fun s => generate_wakeout s false (strtol a))
                wakeout_func (strtol a) w1 H1 H2 Hat Hs)
      as (w2 & Hrun & Hc & _); [reflexivity|].
    exists w2. split; [exact Hrun|exact Hc].
Qed.

(** *** The list of legal interface values *)

Lemma flat_map_pairs {A B} (f g : A -> B) l : forall i x,
  l !! i = Some x ->
  flat_map (fun x => [f x; g x]) l !! (i + i)%nat = Some (f x)
  /\ flat_map (fun x => [f x; g x]) l !! S (i + i) = Some (g x).
Proof.
  induction l as [|y l IH]; intros i x Hi; [discriminate|].
  destruct i as [|i].
  - injection Hi as ->. split; reflexivity.
  - replace (S i + S i)%nat with (S (S (i + i))) by lia.
    exact (IH i x Hi).
Qed.

Lemma flat_map_pairs_length {A B} (f g : A -> B) l :
  length (flat_map (fun x => [f x; g x]) l) = (length l + length l)%nat.
Proof. induction l as [|y l IH]; simpl; [reflexivity|]. rewrite IH. lia. Qed.

(** X9. [print_interface_usage] prints two heading lines and then, for
    each interface of the table in registration order, its name and its
    switch port, or "no switch port" when the port is [INVALID_PORT];
    an empty table gives the heading alone.  Nothing but [stdout]
    changes. *)
Theorem print_interface_usage_lists_every_interface (w : world) :
  exists out,
    print_interface_usage w = Return tt (add_stdouts out w)
    /\ length out = (2 + (length (interfaces w) + length (interfaces w)))%nat
    /\ forall i s,
         interfaces w !! i = Some s ->
         out !! (2 + (i + i))%nat = Some (Printf "  %s" [ArgS (name s)])
         /\ out !! (3 + (i + i))%nat
            = Some (if Z.eqb (switch_portid s) INVALID_PORT
                    then Printf "\t(no switch port)\n" []
                    else Printf "\t(switch port %d)\n" [ArgN (switch_portid s)]).
Proof.
  exists (interface_usage_lines (interfaces w)).
  split; [apply print_interface_usage_prints|].
  unfold interface_usage_lines.
  change (flat_map interface_usage_line (interfaces w))
    with (flat_map
            (fun s => [Printf "  %s" [ArgS (name s)];
                       if negb (Z.eqb (switch_portid s) INVALID_PORT)
                       then Printf "\t(switch port %d)\n" [ArgN (switch_portid s)]
                       else Printf "\t(no switch port)\n" []])
            (interfaces w)).
  split.
  - simpl. now rewrite flat_map_pairs_length.
  - intros i s Hs.
    destruct (flat_map_pairs
                (fun s => Printf "  %s" [ArgS (name s)])
                (fun s => if negb (Z.eqb (switch_portid s) INVALID_PORT)
                          then Printf "\t(switch port %d)\n"
                                      [ArgN (switch_portid s)]
                          else Printf "\t(no switch port)\n" [])
                (interfaces w) i s Hs) as [H1 H2].
    split.
    + exact H1.
    + simpl. rewrite H2. now destruct (Z.eqb (switch_portid s) INVALID_PORT).
Qed.

(** X10. When the lookup of a name fails, [do_to_iface] prints
    "Invalid interface" with the name it was given, followed by the
    list of legal interface values, before it returns [-EINVAL]. *)
Theorem invalid_interface_message
    (iface_name : string) (f : iface_ptr -> Z -> M Z) (context : Z) (w : world) :
  iface_name <> "all" ->
  iface_name <> "ALL" ->
  not_configured iface_name w ->
  exists out w',
    print_interface_usage w = Return tt (add_stdouts out w)
    /\ do_to_iface iface_name f context w = Return (- EINVAL) w'
    /\ stdout w'
       = stdout w ++ Printf "Invalid interface: %s\n" [ArgS iface_name] :: out.
Proof.
  intros H1 H2 Hnone. exists (interface_usage_lines (interfaces w)).
  eexists. split; [apply print_interface_usage_prints|].
  unfold do_to_iface. rewrite (not_all _ H1 H2).
  rewrite (bind_Return _ _ _ _ _ (interface_get_by_name_None _ _ Hnone)).
  rewrite (bind_Return _ _ _ _ _ (printf_prints _ _ _)).
  rewrite (bind_Return _ _ _ _ _ (print_interface_usage_prints _)).
  rewrite add_stdouts_app. unfold ret. split; reflexivity.
Qed.

(** *** "all", from the first interface on *)

Lemma map_imap_invoked {B} (g : iface_ptr -> B) context rcs : forall k,
  map (fun i => g (inv_iface i))
      (imap (fun i r => Invoked (k + i) context r) rcs)
  = map g (seq k (length rcs)).
Proof.
  induction rcs as [|r rcs IH]; intros k; [reflexivity|].
  rewrite imap_cons. simpl. f_equal; [f_equal; lia|].
  rewrite <- (IH (S k)). f_equal. apply imap_ext. intros i x _. simpl.
  f_equal. lia.
Qed.

Lemma map_invocations {B} (g : iface_ptr -> B) context rcs :
  map (fun i => g (inv_iface i)) (invocations context rcs)
  = map g (seq 0 (length rcs)).
Proof. apply (map_imap_invoked g context rcs 0). Qed.

(** A function that is one call into the core, over all interfaces:
    the calls are on the interfaces [0] to [k - 1]. *)
Lemma all_core_calls (ev : iface_ptr -> call) selection f context w :
  well_behaved f ->
  (forall iface w, exists prim,
      f iface context w = core_call (ev iface) iface prim w) ->
  selection = "all" \/ selection = "ALL" ->
  interfaces w <> [] ->
  exists rc w' k,
    do_to_iface selection f context w = Return rc w'
    /\ (1 <= k <= length (interfaces w))%nat
    /\ calls w' = calls w ++ map ev (seq 0 k)
    /\ (rc = 0 -> k = length (interfaces w)).
Proof.
  intros Hf Hcall Hall Hne.
  destruct (do_to_iface_all
              (fun w1 => calls_follow (fun i => ev (inv_iface i)) w w1
                         /\ wakeout_length_default w1 = wakeout_length_default w)
              selection f context w)
    as (rcs & rc & w' & Hrun & Hinv & _ & Hlt & Hlen & (l & Hl & Hc) & _);
    auto.
  - apply invoke_core_call_follows; [exact Hcall|reflexivity].
  - apply calls_follow_refl.
  - exists rc, w', (S (length rcs)). split; [exact Hrun|].
    split; [lia|]. split; [|exact Hlen].
    rewrite Hinv in Hl. apply app_inv_head in Hl. subst l.
    rewrite Hc, map_invocations, length_app. simpl.
    replace (length rcs + 1)%nat with (S (length rcs)) by lia. reflexivity.
Qed.

(** X11. The power and wakeout verbs on "all" call their primitive on
    the interfaces of the table in registration order, from the first
    up to the one where they stop; when the verb returns 0 the primitive
    has been called once on every interface. *)
Theorem all_calls_a_prefix_of_the_table (selection : string) (w : world) :
  selection = "all" \/ selection = "ALL" ->
  interfaces w <> [] ->
  (forall p v a,
      exists rc w' k,
        cmd_set_power [p; v; selection; a] w = Return rc w'
        /\ (1 <= k <= length (interfaces w))%nat
        /\ calls w' = calls w ++ map (power_call (strtol a)) (seq 0 k)
        /\ (rc = 0 -> k = length (interfaces w)))
  /\ (forall p v,
        exists rc w' k,
          cmd_wakeout [p; v; selection] w = Return rc w'
          /\ (1 <= k <= length (interfaces w))%nat
          /\ calls w'
             = calls w
               ++ map (fun i => CallWakeout i false (wakeout_length_default w))
                      (seq 0 k)
          /\ (rc = 0 -> k = length (interfaces w)))
  /\ (forall p v a,
        exists rc w' k,
          cmd_wakeout [p; v; selection; a] w = Return rc w'
          /\ (1 <= k <= length (interfaces w))%nat
          /\ calls w'
             = calls w ++ map (fun i => CallWakeout i false (strtol a)) (seq 0 k)
          /\ (rc = 0 -> k = length (interfaces w))).
Proof.
  intros Hall Hne. split; [|split].
  - intros p v a. rewrite cmd_set_power_args, to_int_strtol.
    apply (all_core_calls (power_call (strtol a))); auto.
    + apply set_power_func_well_behaved.
    + intros iface w1. eexists. apply set_power_func_call.
  - intros p v. rewrite cmd_wakeout_default.
    apply (all_core_calls
             (fun i => CallWakeout i false (wakeout_length_default w))); auto.
    + apply wakeout_func_well_behaved.
    + intros iface w1. eexists. reflexivity.
  - intros p v a. rewrite cmd_wakeout_args, to_int_strtol.
    apply (all_core_calls (fun i => CallWakeout i false (strtol a))); auto.
    + apply wakeout_func_well_behaved.
    + intros iface w1. eexists. reflexivity.
Qed.

(** *** [dumpstate], line by line *)

Lemma map_lookup_seq {A B} (g : A -> list B) (l : list A) : forall pre,
  map (fun i => if (pre ++ l) !! i is Some s then g s else [])
      (seq (length pre) (length l))
  = map g l.
Proof.
  induction l as [|x l IH]; intros pre; [reflexivity|].
  simpl. rewrite list_lookup_middle by reflexivity. f_equal.
  specialize (IH (pre ++ [x])). rewrite <- app_assoc in IH. simpl in IH.
  rewrite length_app in IH. simpl in IH.
  replace (length pre + 1)%nat with (S (length pre)) in IH by lia.
  exact IH.
Qed.

(** [dumpstate] over all interfaces prints the lines of each, in
    registration order. *)
Lemma dumpstate_all_prints selection w :
  selection = "all" \/ selection = "ALL" ->
  interfaces w <> [] ->
  exists w',
    do_to_iface selection dumpstate_func 0 w = Return 0 w'
    /\ stdout w'
       = stdout w ++ flat_map (dumpstate_lines (interfaces w)) (interfaces w).
Proof.
  intros Hall Hne.
  set (lines := fun i : iface_ptr =>
                  if interfaces w !! i is Some s
                  then dumpstate_lines (interfaces w) s else []).
  destruct (do_to_iface_all
              (fun w1 => interfaces w1 = interfaces w
                         /\ exists l,
                              invoked w1 = invoked w ++ l
                              /\ Forall (fun i => inv_rc i = 0) l
                              /\ stdout w1
                                 = stdout w
                                   ++ flat_map (fun i => lines (inv_iface i)) l)
              selection dumpstate_func 0 w)
    as (rcs & rc & w' & Hrun & Hinv & Hzero & Hlt & Hlen
        & Htable & l & Hl & Hl0 & Hout); auto.
  - apply dumpstate_func_well_behaved.
  - intros iface w1 rc w2 (Ht & l & Hl & Hl0 & Hout) Hinvoke.
    unfold invoke in Hinvoke.
    destruct (interfaces w1 !! iface) as [s|] eqn:Hs.
    + rewrite (bind_Return _ _ _ _ _ (dumpstate_func_prints _ _ _ _ Hs))
        in Hinvoke.
      injection Hinvoke as <- <-. split; [exact Ht|].
      exists (l ++ [Invoked iface 0 0]). simpl.
      rewrite Hl, Hout, <- !app_assoc, flat_map_app. simpl.
      split; [reflexivity|]. split.
      { apply Forall_app. split; [exact Hl0|]. now constructor. }
      unfold lines. rewrite <- Ht, Hs, app_nil_r. reflexivity.
    + unfold dumpstate_func, bind, deref in Hinvoke. rewrite Hs in Hinvoke.
      discriminate.
  - split; [reflexivity|]. exists []. simpl. rewrite !app_nil_r. auto.
  - rewrite Hinv in Hl. apply app_inv_head in Hl. subst l.
    assert (Hrc : rc = 0).
    { unfold invocations in Hl0. rewrite imap_app in Hl0.
      apply Forall_app in Hl0 as [_ Hl0]. now inversion Hl0. }
    subst rc. exists w'. split; [exact Hrun|]. rewrite Hout. f_equal.
    rewrite !flat_map_concat_map.
    rewrite (map_invocations lines 0 (rcs ++ [0])).
    rewrite length_app. simpl. specialize (Hlen eq_refl).
    replace (length rcs + 1)%nat with (length (interfaces w)) by lia.
    f_equal. apply (map_lookup_seq _ (interfaces w) []).
Qed.

(** X12. The dumpstate verb on "all" prints what it prints for each
    interface on its own, one interface after the other in registration
    order, and returns 0. *)
Theorem dumpstate_all_is_each_in_order
    (p v selection : string) (w : world) :
  selection = "all" \/ selection = "ALL" ->
  interfaces w <> [] ->
  exists outs w',
    length outs = length (interfaces w)
    /\ (forall i out,
          outs !! i = Some out ->
          dumpstate_func i 0 w = Return 0 (add_stdouts out w))
    /\ cmd_dumpstate [p; v; selection] w = Return 0 w'
    /\ stdout w' = stdout w ++ concat outs.
Proof.
  intros Hall Hne.
  destruct (dumpstate_all_prints selection w Hall Hne) as (w' & Hrun & Hout).
  exists (map (dumpstate_lines (interfaces w)) (interfaces w)), w'.
  split; [apply length_map|]. split.
  - intros i out Hi. change map with (@fmap list _) in Hi.
    apply list_lookup_fmap_Some in Hi as (s & -> & Hs).
    now apply dumpstate_func_prints.
  - rewrite cmd_dumpstate_args. split; [exact Hrun|].
    now rewrite Hout, flat_map_concat_map.
Qed.

Lemma vreg_lines_reports v :
  Printf "\tvreg: %s\n" [ArgS (vreg_name v)] ∈ vreg_lines v
  /\ Printf "\t\tnr_vregs=%u\n" [ArgN (Z.of_nat (nr_vregs v))] ∈ vreg_lines v
  /\ Printf "\t\tpower_enabled=%s\n"
            [ArgS (if power_enabled v then "true" else "false")] ∈ vreg_lines v
  /\ Printf "\t\tuse_count=%u\n" [ArgN (use_count v)] ∈ vreg_lines v
  /\ (vregs v = None -> Printf "\t\t(no vregs)\n" [] ∈ vreg_lines v)
  /\ (forall rails i r,
        vregs v = Some rails -> rails !! i = Some r ->
        Printf "\t\tvregs[%d]: gpio %u, hold_time %u, active_high %u, def_val %u\n"
               [ArgN (Z.of_nat i); ArgN (gpio r); ArgN (hold_time r);
                ArgN (active_high r); ArgN (def_val r)] ∈ vreg_lines v).
Proof.
  unfold vreg_lines. repeat split.
  - rewrite !elem_of_app, !elem_of_cons. tauto.
  - rewrite !elem_of_app, !elem_of_cons. tauto.
  - rewrite !elem_of_app, !elem_of_cons. tauto.
  - rewrite !elem_of_app, !elem_of_cons. tauto.
  - intros ->. rewrite !elem_of_app, !elem_of_cons. tauto.
  - intros rails i r -> Hr. rewrite !elem_of_app. do 3 right. simpl.
    apply (elem_of_lookup_imap_2 rail_line rails r i Hr).
Qed.

(** X13. For every interface, module port or not, [dumpstate] prints
    its name first, then its switch port and interface id (or "none"
    and "unknown" when the port is [INVALID_PORT]), and for each of its
    two regulator groups the name, the number of rails, [power_enabled],
    [use_count], "(no vregs)" for a group without rail array, and one
    line for each rail with its index, gpio, hold time, polarity and
    default value. *)
Theorem dumpstate_reports_port_and_regulators
    (iface : iface_ptr) (s : interface) (context : Z) (w : world) :
  interfaces w !! iface = Some s ->
  exists out,
    dumpstate_func iface context w = Return 0 (add_stdouts out w)
    /\ head out = Some (Printf "Interface %s:\n" [ArgS (name s)])
    /\ (switch_portid s = INVALID_PORT ->
        Printf "\tswitch_portid=<none>\n" [] ∈ out
        /\ Printf "\tinterface ID=<unknown>\n" [] ∈ out)
    /\ (switch_portid s <> INVALID_PORT ->
        Printf "\tswitch_portid=%u\n" [ArgN (switch_portid s)] ∈ out
        /\ Printf "\tinterface ID=%u\n"
                  [ArgN (interface_get_id_by_portid (interfaces w)
                                                    (switch_portid s))] ∈ out)
    /\ forall v,
         v = vsys_vreg s \/ v = refclk_vreg s ->
         Printf "\tvreg: %s\n" [ArgS (vreg_name v)] ∈ out
         /\ Printf "\t\tnr_vregs=%u\n" [ArgN (Z.of_nat (nr_vregs v))] ∈ out
         /\ Printf "\t\tpower_enabled=%s\n"
                   [ArgS (if power_enabled v then "true" else "false")] ∈ out
         /\ Printf "\t\tuse_count=%u\n" [ArgN (use_count v)] ∈ out
         /\ (vregs v = None -> Printf "\t\t(no vregs)\n" [] ∈ out)
         /\ (forall rails i r,
               vregs v = Some rails -> rails !! i = Some r ->
               Printf "\t\tvregs[%d]: gpio %u, hold_time %u, active_high %u, def_val %u\n"
                      [ArgN (Z.of_nat i); ArgN (gpio r); ArgN (hold_time r);
                       ArgN (active_high r); ArgN (def_val r)] ∈ out).
Proof.
  intros Hs. exists (dumpstate_lines (interfaces w) s).
  split; [now apply dumpstate_func_prints|].
  unfold dumpstate_lines. split; [reflexivity|]. split; [|split].
  - intros Hp%Z.eqb_eq. unfold port_lines. rewrite Hp.
    rewrite !elem_of_app, !elem_of_cons. tauto.
  - intros Hp%Z.eqb_neq. unfold port_lines. rewrite Hp.
    rewrite !elem_of_app, !elem_of_cons. tauto.
  - intros v Hv.
    assert (Hin : forall p, p ∈ vreg_lines v ->
              p ∈ port_lines (interfaces w) s ++ vreg_lines (vsys_vreg s)
                  ++ vreg_lines (refclk_vreg s)
                  ++ (if interface_is_module_port s
                      then wake_lines s ++ detect_lines s else [])).
    { intros p Hp. rewrite !elem_of_app. destruct Hv as [<- | <-]; tauto. }
    destruct (vreg_lines_reports v) as (H1 & H2 & H3 & H4 & H5 & H6).
    repeat split; auto.
    intros rails i r Hv' Hr. apply Hin. eapply H6; eassumption.
Qed.





End Listings.

(** ** More of the command on the small board *)

Section MoreOnTheBoard.

Import Demo.

Example capital_letters_name_no_verb : forall c, ~ selects "Power" c.
Proof. intros c [H|H]; destruct c; discriminate. Qed.

(** The letter [d] is the dumpstate verb. *)
Lemma verb_is_selected_by_name_or_letter_witness :
  ["power"; "d"; "all"] !! 1%nat = Some "d"
  /\ selects "d" DUMPSTATE
  /\ power_main ["power"; "d"; "all"] modules_first
     = command_func DUMPSTATE ["power"; "d"; "all"] modules_first.
Proof.
  assert (Hsel : selects "d" DUMPSTATE) by (right; reflexivity).
  split; [reflexivity|]. split; [exact Hsel|].
  destruct (verb_is_selected_by_name_or_letter
              ["power"; "d"; "all"] "d" DUMPSTATE modules_first eq_refl Hsel)
    as [H _].
  exact H.
Defined.

(** "Power" with a capital is no verb. *)
Lemma usage_listing_witness :
  (forall c, ~ selects "Power" c)
  /\ exists w',
       power_main ["power"; "Power"; "all"; "1"] modules_first
       = Exited EXIT_FAILURE w'
       /\ length (stdout w') = 6%nat
       /\ same_state modules_first w'.
Proof.
  split; [exact capital_letters_name_no_verb|].
  destruct (usage_listing ["power"; "Power"; "all"; "1"] modules_first)
    as [H _].
  destruct H as (w' & Hrun & Hout & Hsame & _).
  { right. exists "Power". split; [reflexivity|].
    exact capital_letters_name_no_verb. }
  exists w'. split; [exact Hrun|]. split; [|exact Hsame].
  rewrite Hout. reflexivity.
Defined.

(** The power verb without its last argument. *)
Lemma wrong_arity_exits_with_failure_witness :
  length ["power"; "p"; "all"] <> 4%nat
  /\ exists w',
       cmd_set_power ["power"; "p"; "all"] modules_first
       = Exited EXIT_FAILURE w'
       /\ stdout w'
          = stdout modules_first
            ++ set_power_usage_heading
            ++ interface_usage_lines [module_1; module_2; apb1]
       /\ same_state modules_first w'
       /\ invoked w' = invoked modules_first.
Proof.
  split; [discriminate|].
  destruct (wrong_arity_exits_with_failure ["power"; "p"; "all"] modules_first)
    as [H _].
  apply H. discriminate.
Defined.

(** The same through [main]: the exit leaves the board alone. *)
Lemma exit_leaves_the_board_alone_witness :
  match power_main ["power"; "p"; "all"] modules_first with
  | Exited st w' =>
      same_state modules_first w' /\ invoked w' = invoked modules_first
  | _ => False
  end.
Proof.
  pose proof (exit_leaves_the_board_alone ["power"; "p"; "all"] modules_first)
    as T.
  destruct (power_main ["power"; "p"; "all"] modules_first)
    as [rc w'|st w'|] eqn:E.
  - vm_compute in E. discriminate.
  - destruct (T st w' eq_refl) as (Hsame & Hinv & _). split; assumption.
  - vm_compute in E. discriminate.
Defined.

(** Dumping "all" on a board without interfaces. *)
Lemma undefined_only_on_an_empty_table_witness :
  power_main ["power"; "d"; "all"] (initial_world [] 0%nat) = Undefined
  /\ interfaces (initial_world [] 0%nat) = []
  /\ exists n, ["power"; "d"; "all"] !! 2%nat = Some n
               /\ (n = "all" \/ n = "ALL").
Proof.
  assert (H : power_main ["power"; "d"; "all"] (initial_world [] 0%nat)
              = Undefined) by reflexivity.
  split; [exact H|].
  apply (undefined_only_on_an_empty_table
           ["power"; "d"; "all"] (initial_world (C:=core) [] 0%nat) H).
Defined.

Lemma all_on_an_empty_table_returns_unassigned_rc_witness :
  interfaces (initial_world [] 0%nat) = []
  /\ cmd_wakeout ["power"; "w"; "ALL"] (initial_world [] 0%nat) = Undefined.
Proof.
  split; [reflexivity|].
  destruct (all_on_an_empty_table_returns_unassigned_rc
              "ALL" (initial_world (C:=core) [] 0%nat)) as (_ & _ & H & _);
    [right; reflexivity | reflexivity |].
  exact (H "power" "w").
Defined.

(** Setting the default to 250. *)
Lemma what_a_command_can_change_witness :
  match power_main ["power"; "l"; "250"] modules_first with
  | Return rc w' =>
      (wakeout_length_default w' = -1 \/ wakeout_length_default w' = 250)
      /\ interfaces w' = interfaces modules_first
  | _ => False
  end.
Proof.
  pose proof (what_a_command_can_change ["power"; "l"; "250"] modules_first)
    as T.
  destruct (power_main ["power"; "l"; "250"] modules_first)
    as [rc w'|st w'|] eqn:E.
  - destruct (T rc w' eq_refl) as [Hd Hframe]. split.
    + destruct Hd as [->|(p & v & a & [= <- <- <-] & _ & ->)]; auto.
    + apply Hframe. intros v [= <-]. split; intros [H|H]; discriminate.
  - vm_compute in E. discriminate.
  - vm_compute in E. discriminate.
Defined.

(** Set the default to 250, then pulse [module_2] without a length. *)
Lemma wakeout_length_sets_what_wakeout_uses_witness :
  configured_at "module_2" 1 modules_first
  /\ exists w1 w2,
       cmd_wakeout_length ["power"; "l"; "250"] modules_first = Return 0 w1
       /\ cmd_wakeout ["power"; "w"; "module_2"] w1
          = Return (fst (generate_wakeout module_2 false 250
                                          (board modules_first))) w2
       /\ calls w2 = calls modules_first ++ [CallWakeout 1 false 250].
Proof.
  split; [exact module_2_configured|].
  destruct (wakeout_length_sets_what_wakeout_uses "power" "l" "250" modules_first)
    as (w1 & Hset & _ & _ & _ & _ & _ & _ & Huse).
  destruct (Huse "power" "w" "module_2" 1%nat module_2) as (w2 & Hrun & Hc);
    [discriminate | discriminate | exact module_2_configured | reflexivity |].
  exists w1, w2. split; [exact Hset|]. split; [exact Hrun|exact Hc].
Defined.

(** The third line of the list is the name of the first interface. *)
Lemma print_interface_usage_lists_every_interface_witness :
  interfaces modules_first !! 0%nat = Some module_1
  /\ exists out,
       print_interface_usage modules_first
       = Return tt (add_stdouts out modules_first)
       /\ out !! 2%nat = Some (Printf "  %s" [ArgS "module_1"])
       /\ out !! 3%nat = Some (Printf "\t(switch port %d)\n" [ArgN 13]).
Proof.
  split; [reflexivity|].
  destruct (print_interface_usage_lists_every_interface modules_first)
    as (out & Hrun & _ & Hlist).
  destruct (Hlist 0%nat module_1 eq_refl) as [Hname Hport].
  exists out. split; [exact Hrun|]. split; [exact Hname|exact Hport].
Defined.

Lemma invalid_interface_message_witness :
  not_configured "All" modules_first
  /\ exists out w',
       print_interface_usage modules_first
       = Return tt (add_stdouts out modules_first)
       /\ do_to_iface "All" dumpstate_func 0 modules_first
          = Return (- EINVAL) w'
       /\ stdout w'
          = stdout modules_first
            ++ Printf "Invalid interface: %s\n" [ArgS "All"] :: out.
Proof.
  split; [exact All_not_configured|].
  apply (invalid_interface_message "All" dumpstate_func 0 modules_first);
    [discriminate | discriminate | exact All_not_configured].
Defined.

(** Powering "all" on the board with the built-in interface second. *)
Lemma all_calls_a_prefix_of_the_table_witness :
  interfaces builtin_second <> []
  /\ exists rc w' k,
       cmd_set_power ["power"; "p"; "all"; "1"] builtin_second = Return rc w'
       /\ (1 <= k <= length (interfaces builtin_second))%nat
       /\ calls w'
          = calls builtin_second ++ map (power_call (strtol "1")) (seq 0 k)
       /\ (rc = 0 -> k = length (interfaces builtin_second)).
Proof.
  split; [discriminate|].
  destruct (all_calls_a_prefix_of_the_table "all" builtin_second)
    as (H & _); [left; reflexivity | discriminate |].
  exact (H "power" "p" "1").
Defined.

Lemma dumpstate_all_is_each_in_order_witness :
  interfaces modules_first <> []
  /\ exists outs w',
       length outs = length (interfaces modules_first)
       /\ (forall i out,
             outs !! i = Some out ->
             dumpstate_func i 0 modules_first
             = Return 0 (add_stdouts out modules_first))
       /\ cmd_dumpstate ["power"; "d"; "all"] modules_first = Return 0 w'
       /\ stdout w' = stdout modules_first ++ concat outs.
Proof.
  split; [discriminate|].
  apply (dumpstate_all_is_each_in_order "power" "d" "all" modules_first);
    [left; reflexivity | discriminate].
Defined.

(** The built-in interface has no rail array. *)
Lemma dumpstate_reports_port_and_regulators_witness :
  interfaces modules_first !! 2%nat = Some apb1
  /\ exists out,
       dumpstate_func 2 0 modules_first
       = Return 0 (add_stdouts out modules_first)
       /\ head out = Some (Printf "Interface %s:\n" [ArgS "apb1"])
       /\ Printf "\t\t(no vregs)\n" [] ∈ out.
Proof.
  split; [reflexivity|].
  destruct (dumpstate_reports_port_and_regulators 2%nat apb1 0 modules_first
              eq_refl) as (out & Hrun & Hhead & _ & _ & Hvreg).
  destruct (Hvreg (vsys_vreg apb1)) as (_ & _ & _ & _ & Hnone & _);
    [left; reflexivity|].
  exists out. split; [exact Hrun|]. split; [exact Hhead|].
  apply Hnone. reflexivity.
Defined.


End MoreOnTheBoard.
